(** * entigorm: clause builder, join resolver, deferred scopes, transactions

    A shallow embedding of the Go package [entigorm] (a fluent query layer
    over gorm) and the properties of its predicate builder, its join
    condition rewriting, its deferred scope list and its transactional
    write path.

    Conventions of the embedding:
    - a Go [string] is a [string]; [+] on strings is [+:+];
    - a Go slice is a [list]; [append(s, x...)] is [++]; an index
      expression that Go checks at run time returns [Panic] out of range;
    - the empty interface [any] is the type [any] below;
    - a pointer receiver that is mutated in place becomes a function from
      the old struct value to the new one; where object identity matters
      the structs live in a store indexed by addresses;
    - a run-time panic is the result [Panic]. *)

From Stdlib Require Import ZArith Ascii.
From Stdlib Require String.
From stdpp Require Import base option list strings gmap.

Open Scope Z_scope.
Open Scope nat_scope.

(** ** Results of calls that may panic *)

Inductive res (A : Type) : Type :=
| Ok (a : A)
| Panic.
Arguments Ok {A} a.
Arguments Panic {A}.

Definition res_bind {A B} (r : res A) (k : A -> res B) : res B :=
  match r with
  | Ok a => k a
  | Panic => Panic
  end.

Notation "'try!' x ':=' r 'in' k" := (res_bind r (fun x => k))
  (at level 10, x name, r at level 100, k at level 200).

(** ** Values of type [any] *)

#[local] Set Warnings "-register-all".

Inductive any : Type :=
| ANil
| AInt (n : Z)
| AStr (s : string)
| ASlice (xs : list any).

(** ** part_003: the predicate builder *)

Module Clauses.

Definition EQOperator : string := "=".
Definition GTOperator : string := ">".
Definition GTEOperator : string := ">=".
Definition LTOperator : string := "<".
Definition LTEOperator : string := "<=".
Definition INOperator : string := "IN".
Definition LikeOperator : string := "LIKE".
Definition BetWeen : string := "BETWEEN".
Definition NOTOperator : string := "NOT ".
Definition OROperator : string := "OR ".
Definition ANDOperator : string := "AND ".
Definition ASCOperator : string := " ASC".
Definition DESCOperator : string := " DESC".

Record Builer : Type := mkBuiler {
  key : string;
  value : any;
  operator : string;
  nextBoolOP : string
}.

(** [type Clauser struct { builder []Builer; not bool }] *)
Record Clauser : Type := mkClauser {
  builder : list Builer;
  not : bool
}.

(** [new(Clauser)]: the zero value. *)
Definition new_Clauser : Clauser := mkClauser [] false.

Definition makeWhereClause (operator field : string) (value : any) : Clauser :=
  mkClauser [mkBuiler field value operator ""] false.

(** The package-level constructors. *)
Definition EQ (field : string) (value : any) : Clauser :=
  makeWhereClause EQOperator field value.
Definition GTE (field : string) (value : any) : Clauser :=
  makeWhereClause GTEOperator field value.
Definition GT (field : string) (value : any) : Clauser :=
  makeWhereClause GTOperator field value.
Definition LTE (field : string) (value : any) : Clauser :=
  makeWhereClause LTEOperator field value.
Definition LT (field : string) (value : any) : Clauser :=
  makeWhereClause LTOperator field value.
Definition Between (field : string) (value : any) : Clauser :=
  makeWhereClause BetWeen field value.
Definition Like (field value : string) : Clauser :=
  makeWhereClause LikeOperator field (AStr value).
(** [IN] is variadic: the values arrive as one slice, stored as one value. *)
Definition IN (field : string) (values : list any) : Clauser :=
  makeWhereClause INOperator field (ASlice values).
Definition NOT : Clauser := mkClauser [] true.

(** The methods. Each comparison reads the pending negation, appends the
    predicate made by the package-level constructor and clears the flag. *)
Definition Clauser_EQ (field : string) (value : any) (w : Clauser) : Clauser :=
  let field := if not w then NOTOperator +:+ field else field in
  mkClauser (builder w ++ builder (EQ field value)) false.

Definition Clauser_GT (field : string) (value : any) (w : Clauser) : Clauser :=
  let field := if not w then NOTOperator +:+ field else field in
  mkClauser (builder w ++ builder (GT field value)) false.

Definition Clauser_GTE (field : string) (value : any) (w : Clauser) : Clauser :=
  let field := if not w then NOTOperator +:+ field else field in
  mkClauser (builder w ++ builder (GTE field value)) false.

Definition Clauser_LT (field : string) (value : any) (w : Clauser) : Clauser :=
  let field := if not w then NOTOperator +:+ field else field in
  mkClauser (builder w ++ builder (LT field value)) false.

Definition Clauser_LTE (field : string) (value : any) (w : Clauser) : Clauser :=
  let field := if not w then NOTOperator +:+ field else field in
  mkClauser (builder w ++ builder (LTE field value)) false.

Definition Clauser_IN (field : string) (values : list any) (w : Clauser) : Clauser :=
  let field := if not w then NOTOperator +:+ field else field in
  mkClauser (builder w ++ builder (IN field values)) false.

Definition Clauser_Like (field value : string) (w : Clauser) : Clauser :=
  let field := if not w then NOTOperator +:+ field else field in
  mkClauser (builder w ++ builder (Like field value)) false.

Definition Clauser_Between (field : string) (value : any) (w : Clauser) : Clauser :=
  let field := if not w then NOTOperator +:+ field else field in
  mkClauser (builder w ++ builder (Between field value)) false.

(** [w.builder[len(w.builder)-1].nextBoolOP = op]: the index is [-1] on an
    empty slice, which Go rejects with a run-time panic. *)
Definition set_last_nextBoolOP (op : string) (w : Clauser) : res Clauser :=
  let i := (Z.of_nat (length (builder w)) - 1)%Z in
  if bool_decide (0 <= i < Z.of_nat (length (builder w)))%Z then
    Ok (mkClauser
          (alter (fun b => mkBuiler (key b) (value b) (operator b) op)
                 (Z.to_nat i) (builder w))
          (not w))
  else Panic.

Definition Clauser_AND (w : Clauser) : res Clauser :=
  set_last_nextBoolOP ANDOperator w.

Definition Clauser_OR (w : Clauser) : res Clauser :=
  set_last_nextBoolOP OROperator w.

Definition Clauser_NOT (w : Clauser) : Clauser :=
  mkClauser (builder w) true.

(** One iteration of the rendering loop of [ToSQL]. *)
Definition render_step (where_ : string) (clause : Builer) : string :=
  let where_ := where_ +:+ (key clause +:+ " " +:+ operator clause +:+ " ?") in
  if bool_decide (0 < String.length (nextBoolOP clause))
  then where_ +:+ (" " +:+ nextBoolOP clause)
  else where_.

(** [func (w *Clauser) ToSQL() (string, []any)] (first revision). *)
Definition Clauser_ToSQL (w : Clauser) : string * list any :=
  let args := value <$> builder w in
  let where_ := foldl render_step "" (builder w) in
  (where_, args).

(** The second revision of the file renames the struct to [Clause]; the
    fields and the bodies of the comparison and connective methods are
    unchanged, only [ToSQL] differs: it returns one slice whose first
    element is the fragment. *)
Definition Clause : Type := Clauser.

Definition Clause_EQ : string -> any -> Clause -> Clause := Clauser_EQ.
Definition Clause_GT : string -> any -> Clause -> Clause := Clauser_GT.
Definition Clause_GTE : string -> any -> Clause -> Clause := Clauser_GTE.
Definition Clause_LT : string -> any -> Clause -> Clause := Clauser_LT.
Definition Clause_LTE : string -> any -> Clause -> Clause := Clauser_LTE.
Definition Clause_IN : string -> list any -> Clause -> Clause := Clauser_IN.
Definition Clause_Like : string -> string -> Clause -> Clause := Clauser_Like.
Definition Clause_Between : string -> any -> Clause -> Clause := Clauser_Between.
Definition Clause_NOT : Clause -> Clause := Clauser_NOT.

Definition Clause_AND (w : Clause) : res Clause :=
  set_last_nextBoolOP ANDOperator w.

Definition Clause_OR (w : Clause) : res Clause :=
  set_last_nextBoolOP OROperator w.

Definition Clause_ToSQL (w : Clause) : list any :=
  let args := [ANil] in
  let '(where_, args) :=
    foldl (fun '(where_, args) clause =>
             (render_step where_ clause, args ++ [value clause]))
          (EmptyString, args) (builder w) in
  <[0 := AStr where_]> args.

(** *** Chains of calls on one builder *)

Inductive comparison : Type :=
| CmpEQ (field : string) (v : any)
| CmpGT (field : string) (v : any)
| CmpGTE (field : string) (v : any)
| CmpLT (field : string) (v : any)
| CmpLTE (field : string) (v : any)
| CmpIN (field : string) (vs : list any)
| CmpLike (field : string) (v : string)
| CmpBetween (field : string) (v : any).

Inductive call : Type :=
| Compare (c : comparison)
| CallAND
| CallOR
| CallNOT.

Definition compare (c : comparison) (w : Clauser) : Clauser :=
  match c with
  | CmpEQ f v => Clauser_EQ f v w
  | CmpGT f v => Clauser_GT f v w
  | CmpGTE f v => Clauser_GTE f v w
  | CmpLT f v => Clauser_LT f v w
  | CmpLTE f v => Clauser_LTE f v w
  | CmpIN f vs => Clauser_IN f vs w
  | CmpLike f v => Clauser_Like f v w
  | CmpBetween f v => Clauser_Between f v w
  end.

Definition do_call (c : call) (w : Clauser) : res Clauser :=
  match c with
  | Compare c => Ok (compare c w)
  | CallAND => Clauser_AND w
  | CallOR => Clauser_OR w
  | CallNOT => Ok (Clauser_NOT w)
  end.

Fixpoint chain (cs : list call) (w : Clauser) : res Clauser :=
  match cs with
  | [] => Ok w
  | c :: cs => try! w' := do_call c w in chain cs w'
  end.

(** What a comparison call was given. *)
Definition cmp_field (c : comparison) : string :=
  match c with
  | CmpEQ f _ | CmpGT f _ | CmpGTE f _ | CmpLT f _ | CmpLTE f _
  | CmpIN f _ | CmpLike f _ | CmpBetween f _ => f
  end.

Definition cmp_operator (c : comparison) : string :=
  match c with
  | CmpEQ _ _ => "="
  | CmpGT _ _ => ">"
  | CmpGTE _ _ => ">="
  | CmpLT _ _ => "<"
  | CmpLTE _ _ => "<="
  | CmpIN _ _ => "IN"
  | CmpLike _ _ => "LIKE"
  | CmpBetween _ _ => "BETWEEN"
  end.

Definition cmp_value (c : comparison) : any :=
  match c with
  | CmpEQ _ v | CmpGT _ v | CmpGTE _ v | CmpLT _ v | CmpLTE _ v
  | CmpBetween _ v => v
  | CmpIN _ vs => ASlice vs
  | CmpLike _ v => AStr v
  end.

(** The comparison calls of a chain, in call order, and the values they
    were given. *)
Definition comparisons (cs : list call) : list comparison :=
  omap (fun c => match c with Compare c => Some c | _ => None end) cs.

Definition call_values (cs : list call) : list any :=
  cmp_value <$> comparisons cs.

(** *** Builders as objects: a store of [*Clauser] *)

Definition addr : Type := nat.

(** A method call through a pointer: the receiver is read, the method
    body runs, the receiver is written back. A nil or dangling receiver
    panics on the first field access. *)
Definition at_ptr (m : Clauser -> res Clauser) (p : addr)
    (h : gmap addr Clauser) : res (gmap addr Clauser) :=
  match h !! p with
  | None => Panic
  | Some w => try! w' := m w in Ok (<[p := w']> h)
  end.

(** *** Placeholder markers of a rendered fragment *)

Definition is_marker (c : ascii) : bool := Ascii.eqb c "?"%char.

Fixpoint count_markers (s : string) : nat :=
  match s with
  | EmptyString => 0
  | String c s => (if is_marker c then 1 else 0) + count_markers s
  end.

End Clauses.

(** ** The functions of Go's [strings] and [errors] packages that are used *)

Module strings.

(** [strings.Split(s, sep)] for a non-empty separator (the package only
    splits on [" = "] and on [" "]): the pieces between the leftmost,
    non-overlapping occurrences of [sep]. [skip] counts the characters
    of an occurrence that are still to be dropped, [cur] is the piece
    read so far. *)
Fixpoint split_go (sep : string) (skip : nat) (cur s : string) : list string :=
  match s with
  | EmptyString => [cur]
  | String c s' =>
      match skip with
      | S k => split_go sep k cur s'
      | O =>
          if String.prefix sep s
          then cur :: split_go sep (String.length sep - 1) "" s'
          else split_go sep 0 (cur +:+ String c "") s'
      end
  end.

Definition Split (s sep : string) : list string := split_go sep 0 "" s.

(** [strings.Join(elems, sep)] *)
Definition Join (elems : list string) (sep : string) : string :=
  String.concat sep elems.

(** [strings.CutSuffix(s, suffix)], first component. *)
Fixpoint strip_suffix (s suffix : string) : option string :=
  if String.eqb s suffix then Some ""
  else match s with
       | EmptyString => None
       | String c s' => String c <$> strip_suffix s' suffix
       end.

Definition CutSuffix (s suffix : string) : string :=
  default s (strip_suffix s suffix).

End strings.

Module errors.

(** Error values: [errors.New] makes a value without [Unwrap]; a
    wrapping error (as [fmt.Errorf] with [%w] makes) has
    [Unwrap() error]; [errors.Join] makes a value with
    [Unwrap() []error]. The text stands for the identity of the value. *)
Inductive error : Type :=
| New (text : string)
| Wrap (text : string) (inner : error)
| Joined (errs : list error).

(** [errors.Unwrap]: the result of the [Unwrap() error] method, nil when
    the value is nil or has no such method. *)
Definition Unwrap (err : option error) : option error :=
  match err with
  | Some (Wrap _ inner) => Some inner
  | _ => None
  end.

(** [errors.Join]: nil values are discarded; nil when none is left. *)
Definition Join (errs : list (option error)) : option error :=
  match omap id errs with
  | [] => None
  | es => Some (Joined es)
  end.

Fixpoint eqb (a b : error) : bool :=
  match a, b with
  | New s, New t => String.eqb s t
  | Wrap s x, Wrap t y => String.eqb s t && eqb x y
  | Joined xs, Joined ys =>
      (fix go (xs ys : list error) : bool :=
         match xs, ys with
         | [], [] => true
         | x :: xs, y :: ys => eqb x y && go xs ys
         | _, _ => false
         end) xs ys
  | _, _ => false
  end.

(** [errors.Is]: [target] is found in the tree of [err]. *)
Fixpoint Is (err target : error) : bool :=
  eqb err target ||
  match err with
  | New _ => false
  | Wrap _ inner => Is inner target
  | Joined errs => existsb (fun e => Is e target) errs
  end.

Definition exposes (err : option error) (target : error) : bool :=
  match err with
  | Some e => Is e target
  | None => false
  end.

End errors.

(** ** The part of gorm the package relies on

    A [*gorm.DB] is a connection (the process-wide default handle or a
    begun transaction) with the statement built so far. The chain methods
    ([Select], [Where], [Order], ...) return a handle with one more clause
    and run nothing; called on a nil handle they dereference it. The
    finisher methods ([Find], [Create], [Updates], [Commit], ...) go to the
    data layer and set [Error]. *)

Module gorm.

Inductive conn : Type :=
| Default
| Tx.

Inductive clause : Type :=
| Select (query : list string)
| Where (query : any) (args : list any)
| Order (value : string)
| Offset (offset : Z)
| Limit (limit : Z)
| Group (name : string)
| Having (query : any) (args : list any)
| Joins (query : string) (cond : any) (cond_args : list any)
| JoinsRaw (query : string) (args : list any)
| Preload (query : string).

Record DB : Type := mkDB {
  on : conn;
  statement : list clause
}.

Definition add (c : clause) (db : DB) : DB :=
  mkDB (on db) (statement db ++ [c]).

(** A chain method called through a [*gorm.DB] that may be nil. *)
Definition chain (c : clause) (db : option DB) : res (option DB) :=
  match db with
  | None => Panic
  | Some d => Ok (Some (add c d))
  end.

(** [db.Begin()] *)
Definition Begin (db : DB) : DB := mkDB Tx (statement db).

Inductive action : Type :=
| Find
| First
| Count
| Create
| CreateInBatches (batchSize : nat)
| Updates
| Delete
| RawScan (sql : string) (values : list any)
| Exec (sql : string) (values : list any)
| Commit
| Rollback
| RollbackTo (name : string).

(** One call that reaches the data layer: the handle it ran on, with
    its statement, and the finisher. *)
Record event : Type := mkEvent {
  handle : DB;
  act : action
}.

End gorm.

(** Modelled from the spec: the package-level variable [db], which the
    builders read but which is declared in a file that is not among the
    sources. Section 5 of the spec describes it as the process-wide
    default (non-transactional) connection handle. *)
Definition db : gorm.DB := gorm.mkDB gorm.Default [].

(** ** entity.go, second revision: deferred scopes and explicit commit *)

Module Deferred.
Import Clauses.

(** What the builder needs of the entity type [E]: its [TableName()]
    and, for [reflect.ValueOf(e.table).Elem().Type().Name()], the name
    of the struct the entity value points to ([None] when the value is
    not a pointer, in which case [Elem] panics). *)
Record entity : Type := mkEntity {
  TableName : string;
  elem_type_name : option string
}.

(** The closures that the shaping methods append, one constructor per
    function literal, with the variables it captures. The literal of
    [Having] captures the builder itself and reads [e.clause] when it
    runs. A [*Clause] is [None] when nil, and otherwise stands for the
    clause it points to when the call is made: no property below changes
    a clause after it was attached. *)
Inductive scope : Type :=
| ScopeSelect (cols : list string)
| ScopeWhere (whereClause : option Clause)
| ScopeOrderBy (name : string) (ascending : bool)
| ScopeOffset (value : Z)
| ScopeLimit (value : Z)
| ScopeGroupBy (name : string)
| ScopeHaving
| ScopeJoin (table stmt : string) (args : list any)
| ScopePreload (table : string).

Record transaction : Type := mkTransaction {
  scopes : list scope;
  tx : option gorm.DB;
  commit : bool;
  savePoint : string
}.

Record Entity : Type := mkEntityBuilder {
  transaction_ : transaction;
  error : option errors.error;
  table : entity;
  clause : option Clause;
  hasMany : bool
}.

Definition SQL (ent : entity) : Entity :=
  mkEntityBuilder (mkTransaction [] None false "") None ent
                  (Some (mkClauser [] false)) false.

Definition set_transaction (t : transaction) (e : Entity) : Entity :=
  mkEntityBuilder t (error e) (table e) (clause e) (hasMany e).

Definition set_error (err : option errors.error) (e : Entity) : Entity :=
  mkEntityBuilder (transaction_ e) err (table e) (clause e) (hasMany e).

Definition set_clause (c : option Clause) (e : Entity) : Entity :=
  mkEntityBuilder (transaction_ e) (error e) (table e) c (hasMany e).

Definition set_tx (t : option gorm.DB) (e : Entity) : Entity :=
  let tr := transaction_ e in
  set_transaction (mkTransaction (scopes tr) t (commit tr) (savePoint tr)) e.

(** [e.transaction.scopes = append(e.transaction.scopes, f)] *)
Definition append_scope (f : scope) (e : Entity) : Entity :=
  let tr := transaction_ e in
  set_transaction
    (mkTransaction (scopes tr ++ [f]) (tx tr) (commit tr) (savePoint tr)) e.

(** *** Shaping methods *)

Definition Select (cols : list string) (e : Entity) : Entity :=
  append_scope (ScopeSelect cols) e.

Definition Where (whereClause : option Clause) (e : Entity) : Entity :=
  append_scope (ScopeWhere whereClause) (set_clause whereClause e).

Definition OrderBy (name : string) (ascending : bool) (e : Entity) : Entity :=
  append_scope (ScopeOrderBy name ascending) e.

Definition Offset (value : Z) (e : Entity) : Entity :=
  append_scope (ScopeOffset value) e.

Definition Limit (value : Z) (e : Entity) : Entity :=
  append_scope (ScopeLimit value) e.

Definition GroupBy (name : string) (e : Entity) : Entity :=
  append_scope (ScopeGroupBy name) e.

Definition Having (whereClause : option Clause) (e : Entity) : Entity :=
  append_scope ScopeHaving (set_clause whereClause e).

Definition IsMany (e : Entity) : Entity :=
  mkEntityBuilder (transaction_ e) (error e) (table e) (clause e) true.

(** A method of [*Clause] called through a pointer that may be nil. *)
Definition deref_ToSQL (c : option Clause) : res (list any) :=
  match c with
  | None => Panic
  | Some w => Ok (Clause_ToSQL w)
  end.

(** *** The join resolver *)

(** The two nested loops that collect the non-empty words. *)
Definition tokens (query : string) : list string :=
  foldl
    (fun splitedStmt s =>
       foldl
         (fun splitedStmt word =>
            if bool_decide (0 < String.length word)
            then splitedStmt ++ [word] else splitedStmt)
         splitedStmt (strings.Split s " "))
    [] (strings.Split query " = ").

(** The body of [for i := 1; i < len(splitedStmt); i++]. *)
Definition qualify_step (table : string) (splitedStmt : list string) (i : nat)
    : list string :=
  if bool_decide (splitedStmt !! i = Some "?")
  then alter (fun word => table +:+ "." +:+ word +:+ " =") (i - 1) splitedStmt
  else splitedStmt.

Definition qualify (table : string) (splitedStmt : list string) : list string :=
  foldl (qualify_step table) splitedStmt (seq 1 (length splitedStmt - 1)).

Definition join_stmt (table query : string) : string :=
  strings.Join (qualify table (tokens query)) " ".

Section WithTitle.

(** [cases.Title(language.English, cases.NoLower).String] of
    golang.org/x/text. *)
Variable Title : string -> string.

(** [func (e *Entity[E]) ToSQL() []any] *)
Definition ToSQL (e : Entity) : res (list any) :=
  try! table :=
    (if hasMany e then Ok (Title (TableName (table e)))
     else match elem_type_name (table e) with
          | Some name => Ok name
          | None => Panic
          end) in
  let args := [AStr table] in
  try! sql := deref_ToSQL (clause e) in
  if bool_decide (1 < length sql)
  then Ok (args ++ sql)
  else Ok args.

(** The argument of [Join] is an [any]: a [*Clause], a pointer to a
    type that implements [entity] (given by the zero value that
    [newVar] makes of it), or something else, on which [newVar] or
    the type assertion panics. *)
Inductive join_arg : Type :=
| ArgClause (c : option Clause)
| ArgEntity (v : entity)
| ArgOther.

Definition as_string (v : option any) : res string :=
  match v with
  | Some (AStr s) => Ok s
  | _ => Panic
  end.

Definition Join (arg : join_arg) (e : Entity) : res Entity :=
  try! args :=
    match arg with
    | ArgClause _ => ToSQL e
    | ArgEntity v => ToSQL (SQL v)
    | ArgOther => Panic
    end in
  try! table := as_string (args !! 0) in
  if bool_decide (1 < length args) then
    try! query := as_string (args !! 1) in
    let stmt := join_stmt table query in
    Ok (append_scope (ScopeJoin table stmt args) e)
  else
    Ok (append_scope (ScopePreload table) e).

(** The shaping calls of the fluent interface; only [Join] can
    panic. *)
Inductive shaping : Type :=
| CallSelect (cols : list string)
| CallWhere (whereClause : option Clause)
| CallOrderBy (name : string) (ascending : bool)
| CallOffset (value : Z)
| CallLimit (value : Z)
| CallGroupBy (name : string)
| CallHaving (whereClause : option Clause)
| CallJoin (arg : join_arg).

Definition shape (c : shaping) (e : Entity) : res Entity :=
  match c with
  | CallSelect cols => Ok (Select cols e)
  | CallWhere w => Ok (Where w e)
  | CallOrderBy name ascending => Ok (OrderBy name ascending e)
  | CallOffset v => Ok (Offset v e)
  | CallLimit v => Ok (Limit v e)
  | CallGroupBy name => Ok (GroupBy name e)
  | CallHaving w => Ok (Having w e)
  | CallJoin arg => Join arg e
  end.

Fixpoint shapes (cs : list shaping) (e : Entity) : res Entity :=
  match cs with
  | [] => Ok e
  | c :: cs => try! e' := shape c e in shapes cs e'
  end.

End WithTitle.

(** *** Running the scopes *)

(** The body of each function literal, run on the handle it is given.
    [cur] is [e.clause] at that moment. A literal that returns nil
    makes gorm dereference nil. *)
Definition run_scope (cur : option Clause) (f : scope) (d : gorm.DB) : res gorm.DB :=
  match f with
  | ScopeSelect cols => Ok (gorm.add (gorm.Select cols) d)
  | ScopeWhere whereClause =>
      try! args := deref_ToSQL whereClause in
      if bool_decide (1 < length args) then
        Ok (gorm.add (gorm.Where (default ANil (args !! 0)) (drop 1 args)) d)
      else if bool_decide (0 < length args) then
        Ok (gorm.add (gorm.Where (default ANil (args !! 0)) []) d)
      else Panic
  | ScopeOrderBy name ascending =>
      if ascending then Ok (gorm.add (gorm.Order (name +:+ " ASC ")) d)
      else Ok (gorm.add (gorm.Order (name +:+ " DESC ")) d)
  | ScopeOffset value => Ok (gorm.add (gorm.Offset value) d)
  | ScopeLimit value => Ok (gorm.add (gorm.Limit value) d)
  | ScopeGroupBy name => Ok (gorm.add (gorm.Group name) d)
  | ScopeHaving =>
      try! sql := deref_ToSQL cur in
      Ok (gorm.add (gorm.Having (ASlice sql) []) d)
  | ScopeJoin table stmt args =>
      Ok (gorm.add (gorm.Joins table (AStr stmt) [ASlice (drop 2 args)]) d)
  | ScopePreload table => Ok (gorm.add (gorm.Preload table) d)
  end.

(** [db.Scopes(fs...)]: gorm runs the functions in slice order, each on
    the handle the previous one returned, before the finisher. *)
Definition Scopes (cur : option Clause) (fs : list scope) (d : gorm.DB) : res gorm.DB :=
  foldl (fun r f => try! d := r in run_scope cur f d) (Ok d) fs.

(** *** Terminal methods

    The methods run in a state made of the builder and of the calls
    that reached the data layer so far; [exec] is the data layer: the
    [Error] each such call ends with. *)

Record state : Type := mkState {
  ent : Entity;
  log : list gorm.event
}.

Definition M (A : Type) : Type := state -> res (A * state).

Definition ret {A} (a : A) : M A := fun s => Ok (a, s).

Definition bind {A B} (m : M A) (k : A -> M B) : M B :=
  fun s => match m s with
           | Ok (a, s') => k a s'
           | Panic => Panic
           end.

Notation "'let*' x ':=' m 'in' k" := (bind m (fun x => k))
  (at level 10, x pattern, m at level 100, k at level 200).

Definition get : M Entity := fun s => Ok (ent s, s).

Definition modify (f : Entity -> Entity) : M unit :=
  fun s => Ok (tt, mkState (f (ent s)) (log s)).

Definition lift {A} (r : res A) : M A :=
  fun s => match r with
           | Ok a => Ok (a, s)
           | Panic => Panic
           end.

Section WithDataLayer.

Variable exec : gorm.event -> option errors.error.

(** A finisher called on handle [d]. *)
Definition finish (d : gorm.DB) (a : gorm.action) : M (option errors.error) :=
  fun s =>
    let ev := gorm.mkEvent d a in
    Ok (exec ev, mkState (ent s) (log s ++ [ev])).

(** [d.Scopes(e.transaction.scopes...)] followed by a finisher. *)
Definition scoped (d : gorm.DB) (a : gorm.action) : M (option errors.error) :=
  let* e := get in
  let* d' := lift (Scopes (clause e) (scopes (transaction_ e)) d) in
  finish d' a.

(** A method called through [e.transaction.tx]. *)
Definition the_tx : M gorm.DB :=
  let* e := get in
  match tx (transaction_ e) with
  | Some t => ret t
  | None => lift Panic
  end.

Definition joinError (err : option errors.error) : M (option errors.error) :=
  let* e := get in
  match errors.Unwrap (error e) with
  | Some _ => ret (errors.Join [error e; err])
  | None =>
      let* _ := modify (set_error err) in
      let* e := get in
      ret (error e)
  end.

(** The [Transaction] results are the builder's own transaction or nil. *)
Definition commit_ : M (bool * option errors.error) :=
  let* e := get in
  if commit (transaction_ e) then
    let* t := the_tx in
    let* err := finish t gorm.Commit in
    ret (true, err)
  else ret (true, None).

Definition rollback (err : option errors.error) : M (bool * option errors.error) :=
  let* e := get in
  if bool_decide (0 < String.length (savePoint (transaction_ e))) then
    let* t := the_tx in
    let* rErr := finish t (gorm.RollbackTo (savePoint (transaction_ e))) in
    let* _ := match rErr with
              | Some _ => modify (set_error rErr)
              | None => ret tt
              end in
    let* j := joinError err in
    ret (false, j)
  else
    let* t := the_tx in
    let* rErr := finish t gorm.Rollback in
    match rErr with
    | Some _ =>
        let* _ := modify (set_error rErr) in
        let* j := joinError err in
        ret (false, j)
    | None => ret (true, None)
    end.

(** What the four writes do once the write itself has returned [err]
    on an active transaction. *)
Definition after_write (err : option errors.error) : M (option errors.error) :=
  match err with
  | Some _ =>
      let* (_, rerr) := rollback err in
      match rerr with
      | Some _ => joinError rerr
      | None => joinError err
      end
  | None =>
      let* e := get in
      if commit (transaction_ e) then
        let* (_, err) := commit_ in
        match err with
        | Some _ => joinError err
        | None => ret None
        end
      else ret None
  end.

Definition Find : M (option errors.error) :=
  let* err := scoped db gorm.Find in
  match err with
  | Some _ => joinError err
  | None => ret err
  end.

Definition One : M (option errors.error) :=
  let* err := scoped db gorm.First in
  match err with
  | Some _ => joinError err
  | None => ret None
  end.

Definition Count : M (option errors.error) :=
  let* err := scoped db gorm.Count in
  match err with
  | Some _ => joinError err
  | None => ret None
  end.

Definition Insert : M (option errors.error) :=
  let* e := get in
  match tx (transaction_ e) with
  | None => finish db gorm.Create
  | Some t =>
      let* err := finish t gorm.Create in
      after_write err
  end.

Definition InsertBatch (entities : list entity) : M (option errors.error) :=
  let* e := get in
  match tx (transaction_ e) with
  | None => finish db (gorm.CreateInBatches (length entities))
  | Some t =>
      let* err := finish t (gorm.CreateInBatches (length entities)) in
      after_write err
  end.

Definition Update : M (option errors.error) :=
  let* e := get in
  match tx (transaction_ e) with
  | None => scoped db gorm.Updates
  | Some t =>
      let* err := scoped t gorm.Updates in
      after_write err
  end.

Definition Delete : M (option errors.error) :=
  let* e := get in
  match tx (transaction_ e) with
  | None => scoped db gorm.Delete
  | Some t =>
      let* err := finish t gorm.Delete in
      after_write err
  end.

Definition InsertTx : M (bool * option errors.error) :=
  let* _ := modify (set_tx (Some (gorm.Begin db))) in
  let* t := the_tx in
  let* err := finish t gorm.Create in
  match err with
  | Some _ => rollback err
  | None => commit_
  end.

Definition UpdateTx : M (bool * option errors.error) :=
  let* _ := modify (set_tx (Some (gorm.Begin db))) in
  let* t := the_tx in
  let* err := scoped t gorm.Updates in
  match err with
  | Some _ => rollback err
  | None => commit_
  end.

Definition DeleteTx : M (bool * option errors.error) :=
  let* _ := modify (set_tx (Some (gorm.Begin db))) in
  let* t := the_tx in
  let* err := scoped t gorm.Delete in
  match err with
  | Some _ => rollback err
  | None => commit_
  end.

Definition Query (sql : string) (values : list any) : M (option errors.error) :=
  let* err := scoped db (gorm.RawScan sql values) in
  match err with
  | Some _ => joinError err
  | None => ret None
  end.

(** [QueryRows] scans into [e.table] as [Query] does; the slice it
    returns is not part of the state. *)
Definition QueryRows (sql : string) (values : list any) : M (option errors.error) :=
  let* err := scoped db (gorm.RawScan sql values) in
  match err with
  | Some _ => joinError err
  | None => ret None
  end.

Definition Exec (sql : string) (values : list any) : M (option errors.error) :=
  let* err := scoped db (gorm.Exec sql values) in
  match err with
  | Some _ => joinError err
  | None => ret None
  end.

End WithDataLayer.

(** A shaping call made while the builder is in use. *)
Definition shaping_call (Title : string -> string) (c : shaping) : M unit :=
  let* e := get in
  let* e' := lift (shape Title c e) in
  modify (fun _ => e').

(** [func (e *Entity[E]) SetTx(tx Transaction, commit bool)]: the type
    assertion of [tx] to a pointer to [transaction] panics on a nil
    interface. *)
Definition SetTx (t : option transaction) (commit : bool) (e : Entity) : res Entity :=
  match t with
  | None => Panic
  | Some t =>
      let tr := transaction_ e in
      Ok (set_transaction
            (mkTransaction (scopes tr) (tx t) commit (savePoint tr)) e)
  end.

End Deferred.

(** ** entity.go, first revision: eager application and guarded [SetTx] *)

Module Eager.
Import Clauses.

Record transaction : Type := mkTransaction {
  db_ : option gorm.DB;
  savePoint : string;
  orderBy : string
}.

(** The entity value itself plays no part in the methods below. *)
Record Entity : Type := mkEntityBuilder {
  transaction_ : transaction;
  error : option errors.error;
  clause : option Clause
}.

(** [SQL(ent)]: the builder starts with a begun transaction. *)
Definition SQL : Entity :=
  mkEntityBuilder (mkTransaction (Some (gorm.Begin db)) "" "") None None.

Definition set_db (d : option gorm.DB) (e : Entity) : Entity :=
  let tr := transaction_ e in
  mkEntityBuilder (mkTransaction d (savePoint tr) (orderBy tr))
                  (error e) (clause e).

Definition set_orderBy (name : string) (e : Entity) : Entity :=
  let tr := transaction_ e in
  mkEntityBuilder (mkTransaction (db_ tr) (savePoint tr) name)
                  (error e) (clause e).

Definition set_clause (c : option Clause) (e : Entity) : Entity :=
  mkEntityBuilder (transaction_ e) (error e) c.

(** [e.transaction.db = e.transaction.db.<chain method>(...)] *)
Definition chain (c : gorm.clause) (e : Entity) : res Entity :=
  try! d := gorm.chain c (db_ (transaction_ e)) in
  Ok (set_db d e).

Definition deref_ToSQL (c : option Clause) : res (list any) :=
  match c with
  | None => Panic
  | Some w => Ok (Clause_ToSQL w)
  end.

Definition Select (cols : list string) (e : Entity) : res Entity :=
  chain (gorm.Select cols) e.

Definition Where (whereClause : option Clause) (e : Entity) : res Entity :=
  try! sql := deref_ToSQL whereClause in
  chain (gorm.Where (ASlice sql) []) e.

Definition OrderBy (name : string) (e : Entity) : res Entity :=
  chain (gorm.Order name) (set_orderBy name e).

Definition Ascending (e : Entity) : res Entity :=
  if bool_decide (String.length (orderBy (transaction_ e)) = 0) then Panic
  else chain (gorm.Order (orderBy (transaction_ e) +:+ ASCOperator)) e.

Definition Descending (e : Entity) : res Entity :=
  if bool_decide (String.length (orderBy (transaction_ e)) = 0) then Panic
  else
    let e := set_orderBy
               (strings.CutSuffix (orderBy (transaction_ e)) ASCOperator) e in
    chain (gorm.Order (orderBy (transaction_ e) +:+ DESCOperator)) e.

Definition Offset (value : Z) (e : Entity) : res Entity :=
  chain (gorm.Offset value) e.

Definition Limit (value : Z) (e : Entity) : res Entity :=
  chain (gorm.Limit value) e.

Definition GroupBy (name : string) (e : Entity) : res Entity :=
  chain (gorm.Group name) e.

Definition Having (whereClause : option Clause) (e : Entity) : res Entity :=
  let e := set_clause whereClause e in
  try! sql := deref_ToSQL (clause e) in
  chain (gorm.Having (ASlice sql) []) e.

Definition Join (sql : string) (args : list any) (e : Entity) : res Entity :=
  chain (gorm.JoinsRaw sql args) e.

(** [func (e *Entity[E]) SetTx(db Transaction) Entitier[E]]: the guard,
    then the type assertion (which panics on a nil interface), then the
    assignment. *)
Definition SetTx (t : option transaction) (e : Entity) : res Entity :=
  if bool_decide (db_ (transaction_ e) <> None) then Panic
  else match t with
       | None => Panic
       | Some t => Ok (set_db (db_ t) e)
       end.

(** The shaping calls of the fluent interface. *)
Inductive shaping : Type :=
| CallSelect (cols : list string)
| CallWhere (whereClause : option Clause)
| CallOrderBy (name : string)
| CallAscending
| CallDescending
| CallOffset (value : Z)
| CallLimit (value : Z)
| CallGroupBy (name : string)
| CallHaving (whereClause : option Clause)
| CallJoin (sql : string) (args : list any).

Definition shape (c : shaping) (e : Entity) : res Entity :=
  match c with
  | CallSelect cols => Select cols e
  | CallWhere w => Where w e
  | CallOrderBy name => OrderBy name e
  | CallAscending => Ascending e
  | CallDescending => Descending e
  | CallOffset v => Offset v e
  | CallLimit v => Limit v e
  | CallGroupBy name => GroupBy name e
  | CallHaving w => Having w e
  | CallJoin sql args => Join sql args e
  end.

Fixpoint shapes (cs : list shaping) (e : Entity) : res Entity :=
  match cs with
  | [] => Ok e
  | c :: cs => try! e' := shape c e in shapes cs e'
  end.

(** *** Terminal methods of the eager revision

    As in the deferred revision the methods run in a state made of the
    builder and of the calls that reached the data layer; here every
    call goes through [e.transaction.db]. *)

Record state : Type := mkState {
  ent : Entity;
  log : list gorm.event
}.

Definition M (A : Type) : Type := state -> res (A * state).

Definition ret {A} (a : A) : M A := fun s => Ok (a, s).

Definition bind {A B} (m : M A) (k : A -> M B) : M B :=
  fun s => match m s with
           | Ok (a, s') => k a s'
           | Panic => Panic
           end.

Notation "'let*' x ':=' m 'in' k" := (bind m (fun x => k))
  (at level 10, x pattern, m at level 100, k at level 200).

Definition get : M Entity := fun s => Ok (ent s, s).

Definition modify (f : Entity -> Entity) : M unit :=
  fun s => Ok (tt, mkState (f (ent s)) (log s)).

Definition set_error (err : option errors.error) (e : Entity) : Entity :=
  mkEntityBuilder (transaction_ e) err (clause e).

Section WithDataLayer.

Variable exec : gorm.event -> option errors.error.

(** A finisher called through [e.transaction.db], which panics on a nil
    handle. *)
Definition finish (a : gorm.action) : M (option errors.error) :=
  fun s =>
    match db_ (transaction_ (ent s)) with
    | None => Panic
    | Some d =>
        let ev := gorm.mkEvent d a in
        Ok (exec ev, mkState (ent s) (log s ++ [ev]))
    end.

Definition joinError (err : option errors.error) : M (option errors.error) :=
  let* e := get in
  match errors.Unwrap (error e) with
  | Some _ => ret (errors.Join [error e; err])
  | None =>
      let* _ := modify (set_error err) in
      let* e := get in
      ret (error e)
  end.

Definition commit : M (option errors.error) :=
  let* err := finish gorm.Commit in
  match err with
  | Some _ => joinError err
  | None => ret None
  end.

Definition rollback : M (option errors.error) :=
  let* e := get in
  if bool_decide (0 < String.length (savePoint (transaction_ e))) then
    let* err := finish (gorm.RollbackTo (savePoint (transaction_ e))) in
    joinError err
  else
    let* err := finish gorm.Rollback in
    joinError err.

Definition Find : M (option errors.error) :=
  let* err := finish gorm.Find in
  match err with
  | Some _ => joinError err
  | None => ret err
  end.

Definition One : M (option errors.error) :=
  let* err := finish gorm.First in
  match err with
  | Some _ => joinError err
  | None => ret None
  end.

Definition Insert (commit_flag : bool) : M (option errors.error) :=
  let* err := finish gorm.Create in
  match err with
  | Some _ =>
      let* _ := modify (set_error err) in
      let* r := rollback in
      joinError r
  | None => if commit_flag then commit else ret None
  end.

Definition Update (commit_flag : bool) : M (option errors.error) :=
  let* err := finish gorm.Updates in
  match err with
  | Some _ =>
      let* _ := modify (set_error err) in
      let* r := rollback in
      joinError r
  | None => if commit_flag then commit else ret None
  end.

Definition Delete (commit_flag : bool) : M (option errors.error) :=
  let* err := finish gorm.Delete in
  match err with
  | Some _ =>
      let* _ := modify (set_error err) in
      let* r := rollback in
      joinError r
  | None => if commit_flag then commit else ret None
  end.

Definition Query (sql : string) (values : list any) : M (option errors.error) :=
  let* err := finish (gorm.RawScan sql values) in
  match err with
  | Some _ => joinError err
  | None => ret None
  end.

Definition QueryRows (sql : string) (values : list any) : M (option errors.error) :=
  let* err := finish (gorm.RawScan sql values) in
  match err with
  | Some _ => joinError err
  | None => ret None
  end.

Definition Exec (sql : string) (values : list any) : M (option errors.error) :=
  let* err := finish (gorm.Exec sql values) in
  match err with
  | Some _ => joinError err
  | None => ret None
  end.

End WithDataLayer.

(** [func (e *Entity[E]) Tx() Transaction] *)
Definition Tx (e : Entity) : transaction := transaction_ e.

End Eager.

(** ** Vocabulary of the properties *)

Section ClauseVocabulary.
Import Clauses.

(** The text one predicate contributes: its ["<column> <op> ?"] segment,
    then its connective when one is attached. *)
Definition segment (b : Builer) : string :=
  key b +:+ " " +:+ operator b +:+ " ?".

Definition connective (b : Builer) : string :=
  if bool_decide (0 < String.length (nextBoolOP b))
  then " " +:+ nextBoolOP b else "".

Definition render (bs : list Builer) : string := foldl render_step "" bs.

(** A column name without placeholder marker. *)
Definition marker_free (s : string) : Prop := count_markers s = 0.

(** How a stored predicate relates to the comparison call that made it. *)
Definition made_by (b : Builer) (c : comparison) : Prop :=
  (key b = cmp_field c \/ key b = "NOT " +:+ cmp_field c) /\
  operator b = cmp_operator c /\
  value b = cmp_value c /\
  (nextBoolOP b = "" \/ nextBoolOP b = "AND " \/ nextBoolOP b = "OR ").

End ClauseVocabulary.

Section EngineVocabulary.
Import Deferred.

(** The scope a shaping call is expected to append. *)
Definition appended_by (c : shaping) (f : scope) : Prop :=
  match c with
  | CallSelect cols => f = ScopeSelect cols
  | CallWhere w => f = ScopeWhere w
  | CallOrderBy name ascending => f = ScopeOrderBy name ascending
  | CallOffset v => f = ScopeOffset v
  | CallLimit v => f = ScopeLimit v
  | CallGroupBy name => f = ScopeGroupBy name
  | CallHaving _ => f = ScopeHaving
  | CallJoin _ =>
      (exists table stmt args, f = ScopeJoin table stmt args) \/
      (exists table, f = ScopePreload table)
  end.

(** What a shaping call leaves alone: the handle and the commit flag. *)
Definition same_connection (e e' : Entity) : Prop :=
  tx (transaction_ e') = tx (transaction_ e) /\
  commit (transaction_ e') = commit (transaction_ e) /\
  savePoint (transaction_ e') = savePoint (transaction_ e).

(** Every function literal returns the handle it was given with one
    more clause, the same clause whatever the handle. *)
Definition adds (cur : option Clauses.Clause) (f : scope) (c : gorm.clause) : Prop :=
  forall d : gorm.DB, run_scope cur f d = Ok (gorm.add c d).

(** A terminal method that runs the scopes on the default handle and
    then joins the error, if any. *)
Definition read (exec : gorm.event -> option errors.error) (a : gorm.action)
    : M (option errors.error) :=
  fun s =>
    match scoped exec db a s with
    | Ok (Some err, s') => joinError (Some err) s'
    | Ok (None, s') => Ok (None, s')
    | Panic => Panic
    end.

(** The terminal methods that hand the scope list to gorm, the finisher
    each ends with and the handle each runs on. [Insert], [InsertBatch]
    and [Delete] inside a transaction pass no scopes. *)
Inductive terminal : Type :=
| TFind
| TOne
| TCount
| TUpdate
| TDeleteOutsideTx
| TQuery (sql : string) (values : list any)
| TExec (sql : string) (values : list any).

Definition run_terminal (exec : gorm.event -> option errors.error)
    (t : terminal) : M (option errors.error) :=
  match t with
  | TFind => Find exec
  | TOne => One exec
  | TCount => Count exec
  | TUpdate => Update exec
  | TDeleteOutsideTx => Delete exec
  | TQuery sql values => Query exec sql values
  | TExec sql values => Exec exec sql values
  end.

Definition finisher (t : terminal) : gorm.action :=
  match t with
  | TFind => gorm.Find
  | TOne => gorm.First
  | TCount => gorm.Count
  | TUpdate => gorm.Updates
  | TDeleteOutsideTx => gorm.Delete
  | TQuery sql values => gorm.RawScan sql values
  | TExec sql values => gorm.Exec sql values
  end.

Definition handle_of (t : terminal) (e : Entity) : gorm.DB :=
  match t with
  | TUpdate => default db (tx (transaction_ e))
  | _ => db
  end.

Definition E1 : errors.error := errors.New "E1".

Definition E2 : errors.error := errors.New "E2".

(** A data layer on which every write fails with [E1] and every
    rollback with [E2]. *)
Definition failing (ev : gorm.event) : option errors.error :=
  match gorm.act ev with
  | gorm.Rollback | gorm.RollbackTo _ => Some E2
  | gorm.Commit => None
  | _ => Some E1
  end.

Definition begun : gorm.DB := gorm.Begin db.

(** A builder with an injected transaction and the explicit-commit
    flag set. *)
Definition active (ent : entity) : Entity :=
  mkEntityBuilder (mkTransaction [] (Some begun) true "") None ent
                  (Some (Clauses.mkClauser [] false)) false.

(** The rewriting of one token. *)
Definition qualified (table word : string) : string :=
  table +:+ "." +:+ word +:+ " =".

(** What the loop has made of position [j] once it has handled every
    index below [k]. *)
Definition rewritten (table : string) (toks : list string) (k j : nat)
    : option string :=
  (fun t => if bool_decide (S j < k /\ toks !! S j = Some "?")
            then qualified table t else t) <$> toks !! j.

(** A token that carries a table qualifier. *)
Fixpoint has_dot (s : string) : bool :=
  match s with
  | EmptyString => false
  | String c s => Ascii.eqb c "."%char || has_dot s
  end.

End EngineVocabulary.

Section FurtherVocabulary.

(** A string without blank. *)
Fixpoint no_space (s : string) : bool :=
  match s with
  | EmptyString => true
  | String c s => negb (Ascii.eqb c " "%char) && no_space s
  end.

(** The table identifier a builder resolves for itself in [ToSQL]:
    the titled table name of a has-many builder, else the name of the
    entity's struct type. *)
Definition target (Title : string -> string) (e : Deferred.Entity)
    : option string :=
  if Deferred.hasMany e
  then Some (Title (Deferred.TableName (Deferred.table e)))
  else Deferred.elem_type_name (Deferred.table e).

(** The terminal methods that only read. *)
Definition is_read (t : terminal) : bool :=
  match t with
  | TFind | TOne | TCount | TQuery _ _ | TExec _ _ => true
  | TUpdate | TDeleteOutsideTx => false
  end.

(** Every exported method of the deferred builder, as one step on the
    state made of the builder and the log of data-layer calls. Results
    are dropped; a panic ends the run. *)
Inductive method : Type :=
| MShape (c : Deferred.shaping)
| MSetTx (t : option Deferred.transaction) (commit : bool)
| MIsMany
| MFind
| MOne
| MCount
| MInsert
| MInsertBatch (entities : list Deferred.entity)
| MUpdate
| MDelete
| MInsertTx
| MUpdateTx
| MDeleteTx
| MQuery (sql : string) (values : list any)
| MExec (sql : string) (values : list any).

Definition drop_result {A} (m : Deferred.M A) : Deferred.M unit :=
  Deferred.bind m (fun _ => Deferred.ret tt).

Definition call (Title : string -> string)
    (exec : gorm.event -> option errors.error) (m : method) : Deferred.M unit :=
  match m with
  | MShape c => Deferred.shaping_call Title c
  | MSetTx t commit =>
      Deferred.bind Deferred.get (fun e =>
      Deferred.bind (Deferred.lift (Deferred.SetTx t commit e)) (fun e' =>
      Deferred.modify (fun _ => e')))
  | MIsMany => Deferred.modify Deferred.IsMany
  | MFind => drop_result (Deferred.Find exec)
  | MOne => drop_result (Deferred.One exec)
  | MCount => drop_result (Deferred.Count exec)
  | MInsert => drop_result (Deferred.Insert exec)
  | MInsertBatch entities => drop_result (Deferred.InsertBatch exec entities)
  | MUpdate => drop_result (Deferred.Update exec)
  | MDelete => drop_result (Deferred.Delete exec)
  | MInsertTx => drop_result (Deferred.InsertTx exec)
  | MUpdateTx => drop_result (Deferred.UpdateTx exec)
  | MDeleteTx => drop_result (Deferred.DeleteTx exec)
  | MQuery sql values => drop_result (Deferred.Query exec sql values)
  | MExec sql values => drop_result (Deferred.Exec exec sql values)
  end.

(** The states a builder made by [SQL] can be brought to. *)
Inductive reachable (Title : string -> string)
    (exec : gorm.event -> option errors.error) : Deferred.state -> Prop :=
| reachable_SQL (ent : Deferred.entity) :
    reachable Title exec (Deferred.mkState (Deferred.SQL ent) [])
| reachable_call (s s' : Deferred.state) (m : method) :
    reachable Title exec s ->
    call Title exec m s = Ok (tt, s') ->
    reachable Title exec s'.

(** The placeholder markers of a list of strings. *)
Definition sum_markers (l : list string) : nat :=
  foldr (fun s n => Clauses.count_markers s + n) 0 l.





(** Every exported method of the eager builder that changes the builder
    or reaches the data layer, as one step on the state; [Tx] only reads.
    Results are dropped; a panic ends the run. *)
Inductive eager_method : Type :=
| EShape (c : Eager.shaping)
| ESetTx (t : option Eager.transaction)
| EFind
| EOne
| EInsert (commit : bool)
| EUpdate (commit : bool)
| EDelete (commit : bool)
| EQuery (sql : string) (values : list any)
| EQueryRows (sql : string) (values : list any)
| EExec (sql : string) (values : list any).

Definition eager_builder_call (f : Eager.Entity -> res Eager.Entity)
    : Eager.M unit :=
  fun s =>
    match f (Eager.ent s) with
    | Ok e' => Ok (tt, Eager.mkState e' (Eager.log s))
    | Panic => Panic
    end.

Definition eager_drop_result {A} (m : Eager.M A) : Eager.M unit :=
  Eager.bind m (fun _ => Eager.ret tt).

Definition eager_call (exec : gorm.event -> option errors.error)
    (m : eager_method) : Eager.M unit :=
  match m with
  | EShape c => eager_builder_call (Eager.shape c)
  | ESetTx t => eager_builder_call (Eager.SetTx t)
  | EFind => eager_drop_result (Eager.Find exec)
  | EOne => eager_drop_result (Eager.One exec)
  | EInsert commit => eager_drop_result (Eager.Insert exec commit)
  | EUpdate commit => eager_drop_result (Eager.Update exec commit)
  | EDelete commit => eager_drop_result (Eager.Delete exec commit)
  | EQuery sql values => eager_drop_result (Eager.Query exec sql values)
  | EQueryRows sql values => eager_drop_result (Eager.QueryRows exec sql values)
  | EExec sql values => eager_drop_result (Eager.Exec exec sql values)
  end.

(** The states an eager builder made by [SQL] can be brought to. *)
Inductive eager_reachable (exec : gorm.event -> option errors.error)
    : Eager.state -> Prop :=
| eager_reachable_SQL :
    eager_reachable exec (Eager.mkState Eager.SQL [])
| eager_reachable_call (s s' : Eager.state) (m : eager_method) :
    eager_reachable exec s ->
    eager_call exec m s = Ok (tt, s') ->
    eager_reachable exec s'.

End FurtherVocabulary.

(* ===================================================================== *)
(** * Properties *)
(* ===================================================================== *)

(** ** Strings *)

Section StringFacts.

Lemma string_app_nil_l (s : string) : "" +:+ s = s.
Proof. reflexivity. Qed.

Lemma string_app_cons (a : ascii) (s1 s2 : string) :
  String a s1 +:+ s2 = String a (s1 +:+ s2).
Proof. reflexivity. Qed.

Lemma string_app_nil_r (s : string) : s +:+ "" = s.
Proof.
  induction s as [|a s IH]; [reflexivity|].
  rewrite string_app_cons. by rewrite IH.
Qed.

Lemma string_app_assoc (s1 s2 s3 : string) :
  (s1 +:+ s2) +:+ s3 = s1 +:+ (s2 +:+ s3).
Proof.
  induction s1 as [|a s1 IH]; [reflexivity|].
  rewrite !string_app_cons. by rewrite IH.
Qed.

Lemma count_markers_app (s1 s2 : string) :
  Clauses.count_markers (s1 +:+ s2)
  = Clauses.count_markers s1 + Clauses.count_markers s2.
Proof.
  induction s1 as [|a s1 IH]; [reflexivity|].
  rewrite string_app_cons. simpl. rewrite IH. lia.
Qed.

End StringFacts.

(** ** The predicate builder *)

Section ClauserFacts.
Import Clauses.

Lemma render_step_app (s : string) (b : Builer) :
  render_step s b = s +:+ (segment b +:+ connective b).
Proof.
  unfold render_step, segment, connective.
  case_bool_decide.
  - by rewrite string_app_assoc.
  - by rewrite string_app_nil_r.
Qed.

Lemma foldl_render_step (s : string) (bs : list Builer) :
  foldl render_step s bs = s +:+ render bs.
Proof.
  unfold render. revert s.
  induction bs as [|b bs IH] using rev_ind; intros s.
  - simpl. by rewrite string_app_nil_r.
  - rewrite !foldl_snoc, IH, !render_step_app.
    by rewrite string_app_assoc.
Qed.

Lemma render_nil : render [] = "".
Proof. reflexivity. Qed.

Lemma render_app (bs1 bs2 : list Builer) :
  render (bs1 ++ bs2) = render bs1 +:+ render bs2.
Proof. unfold render at 1. by rewrite foldl_app, foldl_render_step. Qed.

Lemma render_singleton (b : Builer) :
  render [b] = segment b +:+ connective b.
Proof. unfold render. simpl. by rewrite render_step_app. Qed.

Lemma render_cons (b : Builer) (bs : list Builer) :
  render (b :: bs) = (segment b +:+ connective b) +:+ render bs.
Proof. change (b :: bs) with ([b] ++ bs). by rewrite render_app, render_singleton. Qed.

Lemma Clauser_ToSQL_fst (w : Clauser) : (Clauser_ToSQL w).1 = render (builder w).
Proof. reflexivity. Qed.

Lemma Clauser_ToSQL_snd (w : Clauser) :
  (Clauser_ToSQL w).2 = value <$> builder w.
Proof. reflexivity. Qed.

(** Every comparison method appends the same single predicate. *)
Lemma compare_builder (c : comparison) (w : Clauser) :
  compare c w
  = mkClauser
      (builder w ++
         [mkBuiler ((if not w then "NOT " else "") +:+ cmp_field c)
                   (cmp_value c) (cmp_operator c) ""])
      false.
Proof. by destruct c, w as [bs []]. Qed.

Lemma set_last_nextBoolOP_snoc (op : string) (bs : list Builer) (b : Builer) (n : bool) :
  set_last_nextBoolOP op (mkClauser (bs ++ [b]) n)
  = Ok (mkClauser (bs ++ [mkBuiler (key b) (value b) (operator b) op]) n).
Proof.
  unfold set_last_nextBoolOP. simpl builder. simpl not.
  rewrite length_app. simpl length.
  rewrite bool_decide_eq_true_2 by lia.
  replace (Z.to_nat (Z.of_nat (length bs + 1) - 1)) with (length bs + 0) by lia.
  by rewrite alter_app_r.
Qed.

Lemma set_last_nextBoolOP_nil (op : string) (n : bool) :
  set_last_nextBoolOP op (mkClauser [] n) = Panic.
Proof. reflexivity. Qed.

Lemma set_last_nextBoolOP_Ok (op : string) (w w' : Clauser) :
  set_last_nextBoolOP op w = Ok w' ->
  exists bs b,
    builder w = bs ++ [b] /\
    w' = mkClauser (bs ++ [mkBuiler (key b) (value b) (operator b) op]) (not w).
Proof.
  destruct w as [bs n].
  destruct bs as [|b bs _] using rev_ind.
  - by rewrite set_last_nextBoolOP_nil.
  - rewrite set_last_nextBoolOP_snoc. intros [= <-]. by exists bs, b.
Qed.

End ClauserFacts.

(** ** Connectives and negation *)

Section Connectives.
Import Clauses.

(** C9. [AND] and [OR] on a clause without predicates index slot [-1] of
    an empty slice: the call panics, whatever the negation flag is, in
    both revisions of the builder. *)
Theorem C9_connective_on_empty_clause_panics :
  forall n : bool,
    Clauser_AND (mkClauser [] n) = Panic /\
    Clauser_OR (mkClauser [] n) = Panic /\
    Clause_AND (mkClauser [] n) = Panic /\
    Clause_OR (mkClauser [] n) = Panic.
Proof. intros n. repeat split; apply set_last_nextBoolOP_nil. Qed.

(** The fragment of a clause whose last predicate carries connective
    [op] (["AND "] or ["OR "]), and of the same clause after one more
    comparison. *)
Lemma connective_rendered (op : string) (bs : list Builer) (b : Builer) (n : bool) :
  0 < String.length op ->
  let b' := mkBuiler (key b) (value b) (operator b) op in
  (Clauser_ToSQL (mkClauser (bs ++ [b']) n)).1
  = (Clauser_ToSQL (mkClauser bs n)).1
      +:+ (key b +:+ " " +:+ operator b +:+ " ?") +:+ (" " +:+ op) /\
  forall c : comparison,
    (Clauser_ToSQL (compare c (mkClauser (bs ++ [b']) n))).1
    = (Clauser_ToSQL (mkClauser bs n)).1
        +:+ (key b +:+ " " +:+ operator b +:+ " ?") +:+ (" " +:+ op)
        +:+ (((if n then "NOT " else "") +:+ cmp_field c)
               +:+ " " +:+ cmp_operator c +:+ " ?").
Proof.
  intros Hop b'.
  assert (Hb' : render [b'] = segment b +:+ (" " +:+ op)).
  { rewrite render_singleton. unfold connective, segment. simpl.
    by rewrite bool_decide_eq_true_2. }
  split.
  - rewrite !Clauser_ToSQL_fst. simpl builder.
    rewrite render_app, Hb'. reflexivity.
  - intros c. rewrite compare_builder, !Clauser_ToSQL_fst. simpl builder. simpl not.
    rewrite !render_app, Hb', render_singleton.
    unfold connective, segment. simpl.
    by rewrite string_app_nil_r, !string_app_assoc.
Qed.

(** C8. On a clause with at least one predicate, [AND] (resp. [OR])
    sets the connective of the most recently appended predicate and of
    no other; in the rendered fragment [" AND "] (resp. [" OR "]) comes
    right after that predicate's ["<column> <op> ?"] segment, and the
    segment of the next predicate to be appended comes right after the
    connective. *)
Theorem C8_connective_follows_last_predicate :
  forall (bs : list Builer) (b : Builer) (n : bool),
    let w := mkClauser (bs ++ [b]) n in
    let prefix := (Clauser_ToSQL (mkClauser bs n)).1 in
    let seg := key b +:+ " " +:+ operator b +:+ " ?" in
    let next c :=
      ((if n then "NOT " else "") +:+ cmp_field c)
        +:+ " " +:+ cmp_operator c +:+ " ?" in
    (exists w',
       Clauser_AND w = Ok w' /\
       w' = mkClauser (bs ++ [mkBuiler (key b) (value b) (operator b) "AND "]) n /\
       (Clauser_ToSQL w').1 = prefix +:+ seg +:+ " AND " /\
       forall c, (Clauser_ToSQL (compare c w')).1
                 = prefix +:+ seg +:+ " AND " +:+ next c) /\
    (exists w',
       Clauser_OR w = Ok w' /\
       w' = mkClauser (bs ++ [mkBuiler (key b) (value b) (operator b) "OR "]) n /\
       (Clauser_ToSQL w').1 = prefix +:+ seg +:+ " OR " /\
       forall c, (Clauser_ToSQL (compare c w')).1
                 = prefix +:+ seg +:+ " OR " +:+ next c).
Proof.
  intros bs b n w prefix seg next. split.
  - eexists. split; [apply set_last_nextBoolOP_snoc|]. split; [reflexivity|].
    apply (connective_rendered "AND " bs b n). simpl. lia.
  - eexists. split; [apply set_last_nextBoolOP_snoc|]. split; [reflexivity|].
    apply (connective_rendered "OR " bs b n). simpl. lia.
Qed.

(** C7. On the builder at address [p]: [NOT] appends no predicate and
    sets the pending flag; a connective call in between does not use it
    up; the next comparison call appends one predicate whose column
    carries the ["NOT "] marker and clears the flag; the comparison after
    that is not negated; the predicates that were already there keep
    their place and content, and no other builder of the store changes. *)
Theorem C7_NOT_negates_exactly_the_next_comparison :
  forall (h : gmap addr Clauser) (p : addr) (w : Clauser) (c c' : comparison),
    h !! p = Some w ->
    let negated :=
      mkBuiler ("NOT " +:+ cmp_field c) (cmp_value c) (cmp_operator c) "" in
    let plain :=
      mkBuiler (cmp_field c') (cmp_value c') (cmp_operator c') "" in
    exists h1 h2 h3,
      at_ptr (do_call CallNOT) p h = Ok h1 /\
      h1 !! p = Some (mkClauser (builder w) true) /\
      (forall k w1 w1',
         k = CallAND \/ k = CallOR ->
         do_call k w1 = Ok w1' -> not w1' = not w1) /\
      at_ptr (do_call (Compare c)) p h1 = Ok h2 /\
      h2 !! p = Some (mkClauser (builder w ++ [negated]) false) /\
      at_ptr (do_call (Compare c')) p h2 = Ok h3 /\
      h3 !! p = Some (mkClauser (builder w ++ [negated; plain]) false) /\
      (forall q, q <> p ->
         h1 !! q = h !! q /\ h2 !! q = h !! q /\ h3 !! q = h !! q).
Proof.
  intros h p w c c' Hp negated plain.
  exists (<[p := Clauser_NOT w]> h),
         (<[p := compare c (Clauser_NOT w)]> h),
         (<[p := compare c' (compare c (Clauser_NOT w))]> h).
  repeat split.
  - unfold at_ptr. by rewrite Hp.
  - by rewrite lookup_insert_eq.
  - intros k w1 w1' [-> | ->] Hk; simpl in Hk;
      apply set_last_nextBoolOP_Ok in Hk as (bs & b & _ & ->); reflexivity.
  - unfold at_ptr. rewrite lookup_insert_eq. simpl. by rewrite insert_insert_eq.
  - rewrite lookup_insert_eq, compare_builder. reflexivity.
  - unfold at_ptr. rewrite lookup_insert_eq. simpl. by rewrite insert_insert_eq.
  - rewrite lookup_insert_eq, !compare_builder. simpl.
    by rewrite <- app_assoc.
  - by rewrite lookup_insert_ne.
  - by rewrite lookup_insert_ne.
  - by rewrite lookup_insert_ne.
Qed.

Lemma C7_witness :
  exists h1 h2 h3 : gmap addr Clauser,
    at_ptr (do_call CallNOT) 0 {[ 0 := EQ "a" (AInt 1); 1 := EQ "b" (AInt 2) ]} = Ok h1 /\
    at_ptr (do_call (Compare (CmpGT "c" (AInt 3)))) 0 h1 = Ok h2 /\
    at_ptr (do_call (Compare (CmpLT "d" (AInt 4)))) 0 h2 = Ok h3 /\
    h3 !! 0 = Some (mkClauser
                      [mkBuiler "a" (AInt 1) "=" "";
                       mkBuiler "NOT c" (AInt 3) ">" "";
                       mkBuiler "d" (AInt 4) "<" ""] false) /\
    h3 !! 1 = Some (EQ "b" (AInt 2)).
Proof.
  assert (H0 : ({[ 0 := EQ "a" (AInt 1); 1 := EQ "b" (AInt 2) ]}
                  : gmap addr Clauser) !! 0 = Some (EQ "a" (AInt 1)))
    by (vm_compute; reflexivity).
  destruct (C7_NOT_negates_exactly_the_next_comparison
              _ 0 _ (CmpGT "c" (AInt 3)) (CmpLT "d" (AInt 4)) H0)
    as (h1 & h2 & h3 & H1 & _ & _ & H2 & _ & H3 & Hp & Hq).
  exists h1, h2, h3.
  split; [exact H1|]. split; [exact H2|]. split; [exact H3|].
  split; [exact Hp|].
  destruct (Hq 1 ltac:(lia)) as (_ & _ & Hq3).
  etrans; [exact Hq3|]. vm_compute; reflexivity.
Defined.

End Connectives.

(** ** Placeholders and arguments *)

Section Placeholders.
Import Clauses.

(** The unit tests of the builder, replayed on the model. *)
Example TestClauser_NOT_EQ :
  Clauser_ToSQL (Clauser_EQ "field" (AStr "value") (Clauser_NOT new_Clauser))
  = ("NOT field = ?", [AStr "value"]).
Proof. reflexivity. Qed.

Example TestClauser_IN :
  Clauser_ToSQL (Clauser_IN "field" [AStr "value1"; AStr "value2"] new_Clauser)
  = ("field IN ?", [ASlice [AStr "value1"; AStr "value2"]]).
Proof. reflexivity. Qed.

Lemma made_by_compare (c : comparison) (n : bool) :
  made_by (mkBuiler ((if n then "NOT " else "") +:+ cmp_field c)
                    (cmp_value c) (cmp_operator c) "") c.
Proof. repeat split; simpl; destruct n; auto. Qed.

Lemma do_call_made_by (k : call) (w w' : Clauser) (cs0 : list comparison) :
  Forall2 made_by (builder w) cs0 ->
  do_call k w = Ok w' ->
  Forall2 made_by (builder w') (cs0 ++ comparisons [k]).
Proof.
  intros Hw Hk. destruct k as [c| | |]; simpl in Hk.
  - injection Hk as <-. rewrite compare_builder. simpl.
    apply Forall2_app; [done|].
    constructor; [apply made_by_compare | constructor].
  - apply set_last_nextBoolOP_Ok in Hk as (bs & b & Hbs & ->).
    simpl. rewrite app_nil_r. rewrite Hbs in Hw.
    apply Forall2_app_inv_l in Hw as (k1 & k2 & H1 & H2 & ->).
    apply Forall2_app; [done|].
    inversion H2 as [|? c ? ? (Hk & Ho & Hv & _) Hnil]; subst.
    constructor; [|done]. repeat split; simpl; auto.
  - apply set_last_nextBoolOP_Ok in Hk as (bs & b & Hbs & ->).
    simpl. rewrite app_nil_r. rewrite Hbs in Hw.
    apply Forall2_app_inv_l in Hw as (k1 & k2 & H1 & H2 & ->).
    apply Forall2_app; [done|].
    inversion H2 as [|? c ? ? (Hk & Ho & Hv & _) Hnil]; subst.
    constructor; [|done]. repeat split; simpl; auto.
  - injection Hk as <-. simpl. by rewrite app_nil_r.
Qed.

Lemma comparisons_cons (k : call) (cs : list call) :
  comparisons (k :: cs) = comparisons [k] ++ comparisons cs.
Proof. unfold comparisons. by destruct k. Qed.

(** The predicates of a chain are the ones its comparison calls made, in
    call order. *)
Lemma chain_made_by (cs : list call) (w w' : Clauser) (cs0 : list comparison) :
  Forall2 made_by (builder w) cs0 ->
  chain cs w = Ok w' ->
  Forall2 made_by (builder w') (cs0 ++ comparisons cs).
Proof.
  revert w cs0. induction cs as [|k cs IH]; intros w cs0 Hw Hc.
  - injection Hc as <-. simpl. by rewrite app_nil_r.
  - simpl in Hc. destruct (do_call k w) as [w1|] eqn:Hk; [|done].
    simpl in Hc. rewrite comparisons_cons, app_assoc.
    eapply IH; [|done]. by eapply do_call_made_by.
Qed.

Lemma cmp_operator_marker_free (c : comparison) :
  count_markers (cmp_operator c) = 0.
Proof. by destruct c. Qed.

(** A predicate made from a marker-free column renders with exactly one
    marker, the last character of its segment. *)
Lemma made_by_markers (b : Builer) (c : comparison) :
  made_by b c -> marker_free (cmp_field c) ->
  count_markers (key b +:+ " " +:+ operator b +:+ " ") = 0 /\
  count_markers (segment b +:+ connective b) = 1.
Proof.
  intros (Hk & Ho & _ & Hn) Hf. unfold marker_free in Hf.
  assert (Hkey : count_markers (key b) = 0).
  { destruct Hk as [-> | ->]; [done|]. by rewrite count_markers_app, Hf. }
  assert (Hcon : count_markers (connective b) = 0).
  { unfold connective. by destruct Hn as [-> | [-> | ->]]. }
  unfold segment.
  rewrite !count_markers_app, Hcon, Hkey, Ho, cmp_operator_marker_free.
  done.
Qed.

Lemma render_markers (bs : list Builer) (cs : list comparison) :
  Forall2 made_by bs cs ->
  Forall marker_free (cmp_field <$> cs) ->
  count_markers (render bs) = length bs.
Proof.
  induction 1 as [|b c bs cs Hbc _ IH]; intros Hf; [done|].
  rewrite fmap_cons in Hf. apply Forall_cons in Hf as [Hc Hcs].
  rewrite render_cons, count_markers_app.
  destruct (made_by_markers b c Hbc Hc) as [_ ->].
  simpl. by rewrite IH.
Qed.

(** C4, as stated, fails: the builder copies the column name into the
    fragment as it is, so a column that contains the marker adds a
    marker that has no argument. *)
Lemma C4_counterexample :
  ~ (forall (cs : list call) (w : Clauser),
       chain cs new_Clauser = Ok w ->
       count_markers (Clauser_ToSQL w).1 = length (Clauser_ToSQL w).2).
Proof.
  intros H.
  specialize (H [Compare (CmpEQ "a?" (AInt 1))] _ eq_refl).
  vm_compute in H. discriminate H.
Qed.

(** C4 (amended). For every chain of calls on a fresh builder whose
    comparison calls name marker-free columns: the fragment has as many
    markers as there are arguments; the arguments are the values of the
    comparison calls in call order (one per call, also for IN and
    BETWEEN); and the marker that ends the segment of the i-th
    comparison call is preceded by exactly i markers, so the i-th marker
    and the i-th argument belong to the same call. *)
Theorem C4_placeholders_match_arguments :
  forall (cs : list call) (w : Clauser),
    Forall marker_free (cmp_field <$> comparisons cs) ->
    chain cs new_Clauser = Ok w ->
    let frag := (Clauser_ToSQL w).1 in
    let args := (Clauser_ToSQL w).2 in
    count_markers frag = length args /\
    args = call_values cs /\
    forall (i : nat) (c : comparison),
      comparisons cs !! i = Some c ->
      args !! i = Some (cmp_value c) /\
      exists pre neg post,
        frag = pre +:+ (neg +:+ cmp_field c +:+ " " +:+ cmp_operator c +:+ " ?")
                   +:+ post /\
        (neg = "" \/ neg = "NOT ") /\
        count_markers pre = i /\
        count_markers (neg +:+ cmp_field c +:+ " " +:+ cmp_operator c +:+ " ") = 0.
Proof.
  intros cs w Hfree Hchain frag args.
  pose proof (chain_made_by cs new_Clauser w [] (List.Forall2_nil _) Hchain) as Hmade.
  simpl in Hmade.
  assert (Hargs : args = call_values cs).
  { unfold args, call_values. rewrite Clauser_ToSQL_snd.
    clear -Hmade. induction Hmade as [|b c bs cs' (_ & _ & Hv & _) _ IH]; [done|].
    rewrite !fmap_cons. by f_equal. }
  split; [|split; [exact Hargs|]].
  - unfold frag, args. rewrite Clauser_ToSQL_fst, Clauser_ToSQL_snd, length_fmap.
    by eapply render_markers.
  - intros i c Hi. split.
    { rewrite Hargs. unfold call_values. by rewrite list_lookup_fmap, Hi. }
    destruct (Forall2_lookup_r _ _ _ _ _ Hmade Hi) as (b & Hb & Hbc).
    assert (Hc : marker_free (cmp_field c)).
    { eapply Forall_lookup_1; [exact Hfree|]. by rewrite list_lookup_fmap, Hi. }
    destruct (made_by_markers b c Hbc Hc) as [Hseg _].
    destruct Hbc as (Hk & Ho & _ & _).
    assert (exists neg, (neg = "" \/ neg = "NOT ") /\ key b = neg +:+ cmp_field c)
      as (neg & Hneg & Hkey).
    { destruct Hk as [Hk | Hk]; [exists "" | exists "NOT "]; auto. }
    exists (render (take i (builder w))), neg,
           (connective b +:+ render (drop (S i) (builder w))).
    rewrite Hkey, Ho, string_app_assoc in Hseg.
    repeat split; [|exact Hneg| |exact Hseg].
    + unfold frag. rewrite Clauser_ToSQL_fst.
      rewrite <- (take_drop_middle _ _ _ Hb) at 1.
      rewrite render_app, render_cons. unfold segment.
      rewrite Hkey, Ho. by rewrite !string_app_assoc.
    + rewrite (render_markers _ (take i (comparisons cs))).
      * apply length_take_le. apply lookup_lt_Some in Hb. lia.
      * by apply Forall2_take.
      * rewrite fmap_take. by apply Forall_take.
Qed.

Lemma C4_witness :
  let w := mkClauser
             [mkBuiler "a" (AInt 1) "=" "AND ";
              mkBuiler "NOT b" (ASlice [AInt 2; AInt 3]) "IN" "OR ";
              mkBuiler "c" (ASlice [AInt 4; AInt 5]) "BETWEEN" ""] false in
  (Clauser_ToSQL w).1 = "a = ? AND NOT b IN ? OR c BETWEEN ?" /\
  count_markers (Clauser_ToSQL w).1 = length (Clauser_ToSQL w).2 /\
  (Clauser_ToSQL w).2
  = [AInt 1; ASlice [AInt 2; AInt 3]; ASlice [AInt 4; AInt 5]].
Proof.
  intros w. split; [reflexivity|].
  pose proof (C4_placeholders_match_arguments
                [Compare (CmpEQ "a" (AInt 1)); CallAND; CallNOT;
                 Compare (CmpIN "b" [AInt 2; AInt 3]); CallOR;
                 Compare (CmpBetween "c" (ASlice [AInt 4; AInt 5]))]
                w) as H.
  destruct H as (Hcount & Hargs & _).
  - repeat constructor.
  - reflexivity.
  - split; [exact Hcount | exact Hargs].
Defined.

End Placeholders.

(** ** [SetTx] in the eager revision *)

Section SetTxGuard.
Import Eager.



(** The guard does not wait for a shaping call: [SQL] itself stores a
    begun transaction, so [SetTx] panics on a fresh builder as well. *)
Lemma SetTx_on_fresh_builder_panics (t : option transaction) :
  SetTx t SQL = Panic.
Proof. reflexivity. Qed.

(** [SetTx] returns only on a builder without handle. *)
Lemma SetTx_Ok_inv (t : option transaction) (e e' : Entity) :
  SetTx t e = Ok e' -> db_ (transaction_ e) = None.
Proof.
  unfold SetTx. case_bool_decide as Hd; [done|]. intros _.
  by destruct (db_ (transaction_ e)).
Qed.

End SetTxGuard.

(** The deferred revision of [SetTx] has no such guard: given a
    transaction it returns at any point of the chain. *)
Lemma Deferred_SetTx_has_no_guard
    (t : Deferred.transaction) (commit : bool) (e : Deferred.Entity) :
  exists e', Deferred.SetTx (Some t) commit e = Ok e'.
Proof. by eexists. Qed.

Section SetTxOrder.
Import Deferred.

Variable Title : string -> string.



End SetTxOrder.




(** ** The deferred scope list *)

Section ScopeList.
Import Deferred.

Variable Title : string -> string.

Lemma append_scope_spec (f : scope) (e : Entity) :
  scopes (transaction_ (append_scope f e)) = scopes (transaction_ e) ++ [f] /\
  same_connection e (append_scope f e).
Proof. by destruct e as [[] ? ? ? ?]. Qed.

Lemma Join_spec (arg : join_arg) (e e' : Entity) :
  Join Title arg e = Ok e' ->
  exists f, appended_by (CallJoin arg) f /\ e' = append_scope f e.
Proof.
  unfold Join. intros H.
  destruct (match arg with
            | ArgClause _ => ToSQL Title e
            | ArgEntity v => ToSQL Title (SQL v)
            | ArgOther => Panic
            end) as [args|]; [|done].
  simpl in H. destruct (as_string (args !! 0)) as [table|]; [|done].
  simpl in H. case_bool_decide.
  - destruct (as_string (args !! 1)) as [query|]; [|done].
    simpl in H. injection H as <-. eexists. split; [|done].
    left. by eauto.
  - injection H as <-. eexists. split; [|done]. right. by eauto.
Qed.

Lemma shape_spec (c : shaping) (e e' : Entity) :
  shape Title c e = Ok e' ->
  exists f,
    appended_by c f /\
    scopes (transaction_ e') = scopes (transaction_ e) ++ [f] /\
    same_connection e e'.
Proof.
  destruct c; simpl;
    try (intros [= <-]; eexists; split; [reflexivity|];
         by destruct e as [[] ? ? ? ?]).
  intros (f & Hf & ->)%Join_spec. exists f. split; [done|].
  apply append_scope_spec.
Qed.


Lemma run_scope_adds (cur : option Clauses.Clause) (f : scope) (d d' : gorm.DB) :
  run_scope cur f d = Ok d' -> exists c, adds cur f c.
Proof.
  unfold adds. destruct f; simpl; try by eauto.
  - destruct (deref_ToSQL whereClause) as [args|]; [simpl|done].
    repeat case_bool_decide; by eauto.
  - destruct ascending; by eauto.
  - destruct (deref_ToSQL cur) as [sql|]; [simpl|done]. by eauto.
Qed.

Lemma Scopes_snoc (cur : option Clauses.Clause) (fs : list scope) (f : scope) (d : gorm.DB) :
  Scopes cur (fs ++ [f]) d = (try! d' := Scopes cur fs d in run_scope cur f d').
Proof. unfold Scopes. by rewrite foldl_snoc. Qed.

(** FIFO: the statement that results from running a scope list holds
    the clause of each scope, in list order, after what was there. *)
Lemma Scopes_in_order (cur : option Clauses.Clause) (fs : list scope) (d d' : gorm.DB) :
  Scopes cur fs d = Ok d' ->
  exists cs,
    Forall2 (adds cur) fs cs /\
    gorm.on d' = gorm.on d /\
    gorm.statement d' = gorm.statement d ++ cs.
Proof.
  revert d'. induction fs as [|f fs IH] using rev_ind; intros d' H.
  - injection H as <-. exists []. by rewrite app_nil_r.
  - rewrite Scopes_snoc in H.
    destruct (Scopes cur fs d) as [d1|]; [|done]. simpl in H.
    destruct (IH d1 eq_refl) as (cs & Hcs & Hon & Hst).
    destruct (run_scope_adds _ _ _ _ H) as [c Hc].
    rewrite Hc in H. injection H as <-.
    exists (cs ++ [c]). split; [|split].
    + apply Forall2_app; [done|]. by repeat constructor.
    + done.
    + simpl. by rewrite Hst, <- app_assoc.
Qed.

(** [joinError] always returns and reaches no data layer. *)
Lemma joinError_total (err : option errors.error) (s : state) :
  exists r e', joinError err s = Ok (r, mkState e' (log s)).
Proof.
  unfold joinError, bind, get, modify, ret. destruct s as [e lg]. simpl.
  destruct (errors.Unwrap (error e)); simpl; by eauto.
Qed.

Section Terminal.

Variable exec : gorm.event -> option errors.error.

Lemma scoped_Ok (d d' : gorm.DB) (a : gorm.action) (e : Entity)
    (lg : list gorm.event) :
  Scopes (clause e) (scopes (transaction_ e)) d = Ok d' ->
  scoped exec d a (mkState e lg)
  = Ok (exec (gorm.mkEvent d' a), mkState e (lg ++ [gorm.mkEvent d' a])).
Proof. intros H. unfold scoped, bind, get, lift, finish. simpl. by rewrite H. Qed.

Lemma scoped_Panic (d : gorm.DB) (a : gorm.action) (s : state) :
  Scopes (clause (ent s)) (scopes (transaction_ (ent s))) d = Panic ->
  scoped exec d a s = Panic.
Proof. intros H. unfold scoped, bind, get, lift. simpl. by rewrite H. Qed.

Lemma reads_unfold (s : state) :
  Find exec s = read exec gorm.Find s /\
  One exec s = read exec gorm.First s /\
  Count exec s = read exec gorm.Count s /\
  (forall sql values, Query exec sql values s = read exec (gorm.RawScan sql values) s) /\
  (forall sql values, Exec exec sql values s = read exec (gorm.Exec sql values) s).
Proof.
  unfold Find, One, Count, Query, Exec, read, bind, ret.
  repeat split; intros;
    destruct (scoped exec db _ s) as [[[err|] s']|]; reflexivity.
Qed.

Lemma read_spec (a : gorm.action) (e : Entity) (lg : list gorm.event) :
  match Scopes (clause e) (scopes (transaction_ e)) db with
  | Ok d =>
      exists r e',
        read exec a (mkState e lg)
        = Ok (r, mkState e' (lg ++ [gorm.mkEvent d a]))
  | Panic => read exec a (mkState e lg) = Panic
  end.
Proof.
  unfold read.
  destruct (Scopes (clause e) (scopes (transaction_ e)) db) as [d|] eqn:Hd.
  - rewrite (scoped_Ok _ _ _ _ _ Hd).
    destruct (exec (gorm.mkEvent d a)) as [err|]; [|by eauto].
    apply joinError_total.
  - by rewrite scoped_Panic.
Qed.

(** Once the write has run on an active transaction, the rest of the
    method returns. *)
Lemma after_write_total (err : option errors.error) (e : Entity)
    (lg : list gorm.event) (t : gorm.DB) :
  tx (transaction_ e) = Some t ->
  exists r e' evs,
    after_write exec err (mkState e lg) = Ok (r, mkState e' (lg ++ evs)).
Proof.
  destruct e as [[fs otx c sp] er tb cl hm]. simpl. intros ->.
  unfold after_write, commit_, rollback, the_tx, joinError, bind, get, lift,
    finish, modify, ret.
  cbn. repeat case_match; simplify_eq/=;
    first [ by eauto | by (do 2 eexists; exists []; rewrite app_nil_r) ].
Qed.

(** Each terminal method that takes the scopes starts by running them on
    its handle; the finisher is the first call to reach the data layer. *)
Lemma terminal_spec (t : terminal) (e : Entity) (lg : list gorm.event) :
  (t = TDeleteOutsideTx -> tx (transaction_ e) = None) ->
  match Scopes (clause e) (scopes (transaction_ e)) (handle_of t e) with
  | Ok d =>
      exists r e' evs,
        run_terminal exec t (mkState e lg)
        = Ok (r, mkState e' (lg ++ gorm.mkEvent d (finisher t) :: evs))
  | Panic => run_terminal exec t (mkState e lg) = Panic
  end.
Proof.
  intros Ht.
  destruct (reads_unfold (mkState e lg)) as (HF & HO & HC & HQ & HE).
  destruct t; simpl;
    rewrite ?HF, ?HO, ?HC, ?HQ, ?HE;
    try match goal with
        | |- context [read exec ?a _] =>
            pose proof (read_spec a e lg) as Hr;
            destruct (Scopes (clause e) (scopes (transaction_ e)) db);
            [destruct Hr as (r & e' & ->); by exists r, e', [] | done]
        end.
  - unfold Update, bind, get. simpl.
    destruct (tx (transaction_ e)) as [h|] eqn:Htx; simpl.
    + destruct (Scopes (clause e) (scopes (transaction_ e)) h) as [d|] eqn:Hd.
      * rewrite (scoped_Ok _ _ _ _ _ Hd).
        destruct (after_write_total (exec (gorm.mkEvent d gorm.Updates)) e
                    (lg ++ [gorm.mkEvent d gorm.Updates]) h Htx)
          as (r & e' & evs & ->).
        exists r, e', evs. by rewrite <- app_assoc.
      * by rewrite scoped_Panic.
    + destruct (Scopes (clause e) (scopes (transaction_ e)) db) as [d|] eqn:Hd.
      * rewrite (scoped_Ok _ _ _ _ _ Hd). by exists (exec (gorm.mkEvent d gorm.Updates)), e, [].
      * by rewrite scoped_Panic.
  - unfold Delete, bind, get. simpl. rewrite (Ht eq_refl).
    destruct (Scopes (clause e) (scopes (transaction_ e)) db) as [d|] eqn:Hd.
    + rewrite (scoped_Ok _ _ _ _ _ Hd). by exists (exec (gorm.mkEvent d gorm.Delete)), e, [].
    + by rewrite scoped_Panic.
Qed.

End Terminal.

End ScopeList.

Section ScopeOrder.
Import Deferred.

Variable exec : gorm.event -> option errors.error.

(** Once the write of [UpdateTx] or [DeleteTx] has run, the rest of the
    method returns. *)
Lemma Tx_end_total (err : option errors.error) (e : Entity)
    (lg : list gorm.event) (t : gorm.DB) :
  tx (transaction_ e) = Some t ->
  exists r e' evs,
    match err with
    | Some _ => rollback exec err
    | None => commit_ exec
    end (mkState e lg)
    = Ok (r, mkState e' (lg ++ evs)).
Proof.
  destruct e as [[fs otx c sp] er tb cl hm]. simpl. intros ->.
  unfold commit_, rollback, the_tx, joinError, bind, get, lift,
    finish, modify, ret.
  cbn. repeat case_match; simplify_eq/=;
    first [ by eauto | by (do 2 eexists; exists []; rewrite app_nil_r) ].
Qed.

(** [UpdateTx] and [DeleteTx] begin a transaction and run the scopes on
    it; the write is the first call to reach the data layer. *)
Lemma Tx_write_spec (a : gorm.action) (e : Entity) (lg : list gorm.event) :
  let m :=
    let* _ := modify (set_tx (Some (gorm.Begin db))) in
    let* t := the_tx in
    let* err := scoped exec t a in
    match err with
    | Some _ => rollback exec err
    | None => commit_ exec
    end in
  match Scopes (clause e) (scopes (transaction_ e)) begun with
  | Ok d =>
      exists r e' evs,
        m (mkState e lg) = Ok (r, mkState e' (lg ++ gorm.mkEvent d a :: evs))
  | Panic => m (mkState e lg) = Panic
  end.
Proof.
  intros m.
  assert (Hm : m (mkState e lg)
               = match scoped exec begun a (mkState (set_tx (Some begun) e) lg) with
                 | Ok (err, s') =>
                     match err with
                     | Some _ => rollback exec err
                     | None => commit_ exec
                     end s'
                 | Panic => Panic
                 end).
  { by destruct e as [[] ? ? ? ?]. }
  rewrite Hm. clear Hm m.
  assert (He : Scopes (clause (set_tx (Some begun) e))
                 (scopes (transaction_ (set_tx (Some begun) e))) begun
               = Scopes (clause e) (scopes (transaction_ e)) begun).
  { by destruct e as [[] ? ? ? ?]. }
  rewrite <- He.
  destruct (Scopes (clause (set_tx (Some begun) e))
              (scopes (transaction_ (set_tx (Some begun) e))) begun)
    as [d|] eqn:Hd.
  - rewrite (scoped_Ok exec begun d a _ lg Hd).
    destruct (Tx_end_total (exec (gorm.mkEvent d a)) (set_tx (Some begun) e)
                (lg ++ [gorm.mkEvent d a]) begun eq_refl)
      as (r & e' & evs & ->).
    exists r, e', evs. by rewrite <- app_assoc.
  - by rewrite scoped_Panic.
Qed.

(** C5 fails on the code at [Delete] inside a transaction. Whatever
    scopes the builder has accumulated, [Delete] on a builder with a
    transaction returns, and its write reaches the data layer on the
    transaction handle as it is: no scope is applied, not even one that
    would panic. On the same builder [Update] runs its write on the
    handle with one clause added per scope, in the order of the list,
    and so do [DeleteTx], on the transaction it begins, and [Delete]
    once the transaction is taken away, on the default handle. *)
Theorem C5_Delete_in_transaction_applies_no_scope :
  forall (e : Entity) (h : gorm.DB) (lg : list gorm.event),
    tx (transaction_ e) = Some h ->
    (exists r e' evs,
       Delete exec (mkState e lg)
       = Ok (r, mkState e' (lg ++ gorm.mkEvent h gorm.Delete :: evs))) /\
    (forall d,
       Scopes (clause e) (scopes (transaction_ e)) h = Ok d ->
       (exists cls,
          Forall2 (adds (clause e)) (scopes (transaction_ e)) cls /\
          gorm.on d = gorm.on h /\
          gorm.statement d = gorm.statement h ++ cls) /\
       (exists r e' evs,
          Update exec (mkState e lg)
          = Ok (r, mkState e' (lg ++ gorm.mkEvent d gorm.Updates :: evs)))) /\
    (forall d,
       Scopes (clause e) (scopes (transaction_ e)) begun = Ok d ->
       exists r e' evs,
         DeleteTx exec (mkState e lg)
         = Ok (r, mkState e' (lg ++ gorm.mkEvent d gorm.Delete :: evs))) /\
    (forall d,
       Scopes (clause e) (scopes (transaction_ e)) db = Ok d ->
       exists r,
         Delete exec (mkState (set_tx None e) lg)
         = Ok (r, mkState (set_tx None e) (lg ++ [gorm.mkEvent d gorm.Delete]))).
Proof.
  intros e h lg Htx. split; [|split; [|split]].
  - unfold Delete, bind at 1, get. simpl. rewrite Htx.
    unfold bind at 1, finish. simpl.
    destruct (after_write_total exec (exec (gorm.mkEvent h gorm.Delete)) e
                (lg ++ [gorm.mkEvent h gorm.Delete]) h Htx)
      as (r & e' & evs & ->).
    exists r, e', evs. by rewrite <- app_assoc.
  - intros d Hd. split; [by apply Scopes_in_order|].
    unfold Update, bind at 1, get. simpl. rewrite Htx.
    unfold bind at 1. rewrite (scoped_Ok exec h d gorm.Updates e lg Hd).
    destruct (after_write_total exec (exec (gorm.mkEvent d gorm.Updates)) e
                (lg ++ [gorm.mkEvent d gorm.Updates]) h Htx)
      as (r & e' & evs & ->).
    exists r, e', evs. by rewrite <- app_assoc.
  - intros d Hd.
    pose proof (Tx_write_spec gorm.Delete e lg) as H. simpl in H.
    rewrite Hd in H. exact H.
  - intros d Hd.
    assert (HD : Delete exec (mkState (set_tx None e) lg)
                 = scoped exec db gorm.Delete (mkState (set_tx None e) lg)).
    { by destruct e as [[] ? ? ? ?]. }
    rewrite HD.
    assert (He : Scopes (clause (set_tx None e))
                   (scopes (transaction_ (set_tx None e))) db = Ok d).
    { rewrite <- Hd. by destruct e as [[] ? ? ? ?]. }
    rewrite (scoped_Ok exec db d gorm.Delete _ lg He). by eexists.
Qed.

End ScopeOrder.

Lemma C5_witness :
  let e := Deferred.Where (Some (Clauses.EQ "id" (AInt 1)))
             (active (Deferred.mkEntity "orders" (Some "Order"))) in
  let filtered := gorm.add (gorm.Where (AStr "id = ?") [AInt 1]) begun in
  (exists r e' evs,
     Deferred.Delete (fun _ => None) (Deferred.mkState e [])
     = Ok (r, Deferred.mkState e' (gorm.mkEvent begun gorm.Delete :: evs))) /\
  (exists r e' evs,
     Deferred.Update (fun _ => None) (Deferred.mkState e [])
     = Ok (r, Deferred.mkState e' (gorm.mkEvent filtered gorm.Updates :: evs))) /\
  (exists r e' evs,
     Deferred.DeleteTx (fun _ => None) (Deferred.mkState e [])
     = Ok (r, Deferred.mkState e' (gorm.mkEvent filtered gorm.Delete :: evs))) /\
  gorm.statement begun = [] /\
  gorm.statement filtered = [gorm.Where (AStr "id = ?") [AInt 1]].
Proof.
  intros e filtered.
  destruct (C5_Delete_in_transaction_applies_no_scope
              (fun _ => None) e begun [] eq_refl)
    as (HD & HU & HT & _).
  split; [exact HD|].
  split; [exact (proj2 (HU filtered eq_refl))|].
  split; [exact (HT filtered eq_refl)|].
  split; reflexivity.
Defined.

(** ** Transactional writes that fail *)

Section FailedWrites.
Import Deferred.

Lemma active_by_SetTx (ent : entity) :
  SetTx (Some (mkTransaction [] (Some begun) false "")) true (SQL ent)
  = Ok (active ent).
Proof. reflexivity. Qed.

(** C1 fails on the code. With plain error values ([errors.New]) for
    the write failure [E1] and the rollback failure [E2], each of the
    four writes returns [E1] alone: [E2] is stored in the builder and
    then overwritten, because [joinError] joins only when the stored
    error has an [Unwrap] method. Commit is not called. *)
Theorem C1_rollback_failure_is_dropped :
  forall ent : entity,
    let s0 := mkState (active ent) [] in
    let after (a : gorm.action) :=
      Ok (Some E1,
          mkState (set_error (Some E1) (active ent))
                  [gorm.mkEvent begun a; gorm.mkEvent begun gorm.Rollback]) in
    Update failing s0 = after gorm.Updates /\
    Insert failing s0 = after gorm.Create /\
    Delete failing s0 = after gorm.Delete /\
    InsertBatch failing [ent; ent] s0 = after (gorm.CreateInBatches 2) /\
    errors.exposes (Some E1) E1 = true /\
    errors.exposes (Some E1) E2 = false.
Proof. intros ent. repeat split. Qed.

(** The join does happen when the rollback error wraps another error. *)
Example wrapped_rollback_failure_is_joined (ent : entity) :
  let W2 := errors.Wrap "E2" (errors.New "cause") in
  let exec ev := match gorm.act ev with
                 | gorm.Rollback => Some W2
                 | _ => Some E1
                 end in
  exists r s,
    Update exec (mkState (active ent) []) = Ok (r, s) /\
    errors.exposes r E1 = true /\ errors.exposes r W2 = true.
Proof. eexists. eexists. repeat split. Qed.

(** On the failure path of a write the data layer sees rollbacks only. *)
Lemma after_write_failure_never_commits
    (exec : gorm.event -> option errors.error) (err : errors.error)
    (s : state) (r : option errors.error) (s' : state) :
  after_write exec (Some err) s = Ok (r, s') ->
  exists evs,
    log s' = log s ++ evs /\
    Forall (fun ev => gorm.act ev <> gorm.Commit) evs.
Proof.
  destruct s as [[[fs [t|] c sp] er tb cl hm] lg].
  all: unfold after_write, rollback, the_tx, joinError, bind, get, lift,
         finish, modify, ret.
  all: cbn; case_bool_decide; cbn; try done.
  all: match goal with
       | |- context [gorm.mkEvent ?d ?a] => exists [gorm.mkEvent d a]
       end.
  all: repeat case_match; simplify_eq/=.
  all: split; [done|].
  all: by repeat constructor.
Qed.

(** [Delete] inside a transaction calls the finisher on the transaction
    handle as it is: the scopes of the builder are not passed. *)
Example Delete_in_transaction_passes_no_scopes (ent : entity) :
  let e := Where (Some (Clauses.EQ "id" (AInt 1))) (active ent) in
  exists r e',
    Delete (fun _ => None) (mkState e [])
    = Ok (r, mkState e' [gorm.mkEvent begun gorm.Delete;
                         gorm.mkEvent begun gorm.Commit]) /\
    gorm.statement begun = [].
Proof. by do 2 eexists. Qed.

End FailedWrites.

(** ** The join resolver *)

Section JoinResolver.
Import Deferred.

Lemma rewritten_start (table : string) (toks : list string) (j : nat) :
  rewritten table toks 1 j = toks !! j.
Proof.
  unfold rewritten. rewrite bool_decide_eq_false_2 by lia.
  by destruct (toks !! j).
Qed.

Lemma rewritten_self (table : string) (toks : list string) (k : nat) :
  rewritten table toks k k = toks !! k.
Proof.
  unfold rewritten. rewrite bool_decide_eq_false_2 by lia.
  by destruct (toks !! k).
Qed.

(** Loop invariant of [for i := 1; i < len(splitedStmt); i++]. *)
Lemma qualify_loop (table : string) (toks : list string) (n j : nat) :
  foldl (qualify_step table) toks (seq 1 n) !! j = rewritten table toks (S n) j.
Proof.
  revert j. induction n as [|n IH]; intros j.
  - simpl. by rewrite rewritten_start.
  - rewrite seq_S, foldl_snoc. simpl.
    set (st := foldl (qualify_step table) toks (seq 1 n)) in *.
    unfold qualify_step.
    rewrite (IH (S n)), rewritten_self.
    replace (S n - 1) with n by lia.
    case_bool_decide as Hq.
    + destruct (decide (j = n)) as [-> | Hj].
      * rewrite list_lookup_alter_eq, IH. unfold rewritten.
        rewrite bool_decide_eq_false_2 by lia.
        rewrite bool_decide_eq_true_2 by (split; [lia|done]).
        by destruct (toks !! n).
      * rewrite list_lookup_alter_ne by done. rewrite IH. unfold rewritten.
        destruct (toks !! j) as [t|]; [simpl|done].
        erewrite bool_decide_ext; [reflexivity|].
        split; intros [? ?]; split; (lia || done).
    + rewrite IH. unfold rewritten.
      destruct (toks !! j) as [t|]; [simpl|done].
      erewrite bool_decide_ext; [reflexivity|].
      split; intros [? ?]; split; try done; try lia.
      destruct (decide (j = n)) as [-> | ?]; [done | lia].
Qed.

Lemma qualify_lookup (table : string) (toks : list string) (j : nat) :
  qualify table toks !! j
  = (fun t => if bool_decide (toks !! S j = Some "?")
              then qualified table t else t) <$> toks !! j.
Proof.
  unfold qualify. rewrite qualify_loop. unfold rewritten.
  destruct (toks !! j) as [t|]; [simpl|done].
  erewrite bool_decide_ext; [reflexivity|].
  split; [by intros [_ ?]|]. intros Hq. split; [|done].
  apply lookup_lt_Some in Hq. lia.
Qed.

Lemma qualify_length (table : string) (toks : list string) :
  length (qualify table toks) = length toks.
Proof.
  unfold qualify. generalize (seq 1 (length toks - 1)). intros idx.
  induction idx as [|i idx IH] using rev_ind; [done|].
  rewrite foldl_snoc. unfold qualify_step at 1.
  case_bool_decide; [|done]. by rewrite length_alter.
Qed.

(** C3, as stated, fails: the loop looks at the token after the column
    only, never at the column itself, so a column that is already
    qualified is qualified again. *)
Lemma C3_counterexample :
  tokens "Users.id = ?" = ["Users.id"; "?"] /\
  join_stmt "Orders" "Users.id = ?" = "Orders.Users.id = ?" /\
  ~ (forall (table query : string) (i : nat) (t : string),
       tokens query !! i = Some t ->
       has_dot t = true ->
       qualify table (tokens query) !! i = Some t).
Proof.
  split; [reflexivity|]. split; [reflexivity|].
  intros H. specialize (H "Orders" "Users.id = ?" 0 "Users.id" eq_refl eq_refl).
  vm_compute in H. discriminate H.
Qed.

(** C3 (amended). For every table and every raw condition, with any
    number of equality clauses: the rewriting keeps the number and the
    order of the tokens; each token that immediately precedes a
    placeholder token becomes ["<table>.<token> ="], whether it contains
    a dot or not; every other token stays as it is; the result is the
    tokens joined by single spaces. *)
Theorem C3_tokens_before_placeholders_are_qualified :
  forall (table query : string),
    let toks := tokens query in
    length (qualify table toks) = length toks /\
    (forall i : nat,
       qualify table toks !! i
       = (fun t => if bool_decide (toks !! S i = Some "?")
                   then table +:+ "." +:+ t +:+ " =" else t) <$> toks !! i) /\
    join_stmt table query = String.concat " " (qualify table toks).
Proof.
  intros table query toks. split; [apply qualify_length|].
  split; [|reflexivity]. intros i. apply qualify_lookup.
Qed.

(** C6. The condition ["id = ? AND status = ?"], which is what the clause
    [EQ("id", v1).AND().EQ("status", v2)] renders to, is resolved for
    table ["Orders"] into ["Orders.id = ? AND Orders.status = ?"]; both
    strings hold two placeholders; [Join] on a builder with that clause
    and that table appends one scope, which hands to gorm the resolved
    string together with the two values of the clause. *)
Theorem C6_join_condition_is_qualified :
  forall (Title : string -> string) (v1 v2 : any),
    let cond := "id = ? AND status = ?" in
    let w := Clauses.mkClauser
               [Clauses.mkBuiler "id" v1 "=" "AND ";
                Clauses.mkBuiler "status" v2 "=" ""] false in
    let e := Where (Some w) (SQL (mkEntity "orders" (Some "Orders"))) in
    join_stmt "Orders" cond = "Orders.id = ? AND Orders.status = ?" /\
    Clauses.count_markers (join_stmt "Orders" cond) = Clauses.count_markers cond /\
    Clauses.count_markers cond = 2 /\
    Clauses.chain [Clauses.Compare (Clauses.CmpEQ "id" v1); Clauses.CallAND;
                   Clauses.Compare (Clauses.CmpEQ "status" v2)]
                  Clauses.new_Clauser = Ok w /\
    Clauses.Clause_ToSQL w = [AStr cond; v1; v2] /\
    exists f,
      Join Title (ArgClause (Some w)) e = Ok (append_scope f e) /\
      f = ScopeJoin "Orders" "Orders.id = ? AND Orders.status = ?"
                    [AStr "Orders"; AStr cond; v1; v2] /\
      forall (cur : option Clauses.Clause) (d : gorm.DB),
        run_scope cur f d
        = Ok (gorm.add
                (gorm.Joins "Orders" (AStr "Orders.id = ? AND Orders.status = ?")
                            [ASlice [v1; v2]]) d).
Proof.
  intros Title v1 v2 cond w e.
  repeat split.
  eexists. repeat split.
Qed.

End JoinResolver.

(* ===================================================================== *)
(** * Further properties of the code *)
(* ===================================================================== *)

(** ** The predicate builder, continued *)

Section ClauseRendering.
Import Clauses.

Lemma Clause_ToSQL_loop (bs : list Builer) (s : string) (args : list any) :
  foldl (fun '(where_, args) clause =>
           (render_step where_ clause, args ++ [value clause]))
        (s, args) bs
  = (foldl render_step s bs, args ++ (value <$> bs)).
Proof.
  revert s args. induction bs as [|b bs IH]; intros s args; simpl.
  - by rewrite app_nil_r.
  - rewrite IH. by rewrite <- app_assoc.
Qed.

Lemma Clause_ToSQL_cons (w : Clauser) :
  Clause_ToSQL w = AStr (Clauser_ToSQL w).1 :: (Clauser_ToSQL w).2.
Proof. unfold Clause_ToSQL. rewrite Clause_ToSQL_loop. reflexivity. Qed.

(** X1. The two revisions of [ToSQL] agree: the slice that [Clause.ToSQL]
    returns is the fragment of [Clauser.ToSQL] followed by its arguments.
    It therefore has one element more than the clause has predicates and
    is never empty. *)
Theorem X1_Clause_ToSQL_is_fragment_then_arguments :
  forall w : Clauser,
    Clause_ToSQL w = AStr (Clauser_ToSQL w).1 :: (Clauser_ToSQL w).2 /\
    length (Clause_ToSQL w) = S (length (builder w)).
Proof.
  intros w. split; [apply Clause_ToSQL_cons|].
  rewrite Clause_ToSQL_cons. simpl. by rewrite length_fmap.
Qed.

(** X2. Rendering is compositional: a comparison call extends the
    fragment by exactly its own ["<column> <op> ?"] segment and the
    argument list by exactly its value, whatever the clause held before.
    Nothing is put between two predicates unless [AND] or [OR] was
    called on the first. *)
Theorem X2_comparison_extends_rendering :
  forall (c : comparison) (w : Clauser),
    Clauser_ToSQL (compare c w)
    = ((Clauser_ToSQL w).1
         +:+ ((if not w then "NOT " else "") +:+ cmp_field c)
         +:+ " " +:+ cmp_operator c +:+ " ?",
       (Clauser_ToSQL w).2 ++ [cmp_value c]).
Proof.
  intros c w. rewrite compare_builder. unfold Clauser_ToSQL. simpl builder.
  rewrite fmap_app. f_equal.
  fold (render (builder w ++
                  [mkBuiler ((if not w then "NOT " else "") +:+ cmp_field c)
                            (cmp_value c) (cmp_operator c) ""])).
  fold (render (builder w)).
  rewrite render_app, render_singleton. unfold segment, connective. simpl.
  by rewrite string_app_nil_r.
Qed.

(** X3. The connective of a predicate is the one set last: [AND] after
    [OR], [OR] after [AND] and a repeated call all give what the last
    call alone gives. *)
Theorem X3_last_connective_wins :
  forall w w1 : Clauser,
    (Clauser_AND w = Ok w1 -> Clauser_OR w1 = Clauser_OR w) /\
    (Clauser_OR w = Ok w1 -> Clauser_AND w1 = Clauser_AND w) /\
    (Clauser_AND w = Ok w1 -> Clauser_AND w1 = Ok w1) /\
    (Clauser_OR w = Ok w1 -> Clauser_OR w1 = Ok w1).
Proof.
  intros w w1. unfold Clauser_AND, Clauser_OR.
  repeat split; intros (bs & b & Hw & ->)%set_last_nextBoolOP_Ok;
    destruct w as [bs' n]; simpl in Hw; subst bs';
    by rewrite !set_last_nextBoolOP_snoc.
Qed.

Lemma X3_witness :
  exists w1,
    Clauser_AND (EQ "a" (AInt 1)) = Ok w1 /\
    Clauser_OR w1 = Ok (mkClauser [mkBuiler "a" (AInt 1) "=" "OR "] false).
Proof.
  exists (mkClauser [mkBuiler "a" (AInt 1) "=" "AND "] false).
  split; [reflexivity|].
  destruct (X3_last_connective_wins
              (EQ "a" (AInt 1))
              (mkClauser [mkBuiler "a" (AInt 1) "=" "AND "] false))
    as (H & _).
  rewrite (H eq_refl). reflexivity.
Defined.

(** X4. Negation does not cancel: any positive number of [NOT] calls in
    a row negates the next comparison exactly once. *)
Theorem X4_repeated_NOT_negates_once :
  forall (n : nat) (c : comparison) (w : Clauser),
    chain (replicate (S n) CallNOT ++ [Compare c]) w
    = Ok (mkClauser
            (builder w ++
               [mkBuiler ("NOT " +:+ cmp_field c) (cmp_value c)
                         (cmp_operator c) ""])
            false).
Proof.
  intros n c w. revert w. induction n as [|n IH]; intros w.
  - simpl. by rewrite compare_builder.
  - change (chain (replicate (S (S n)) CallNOT ++ [Compare c]) w)
      with (chain (replicate (S n) CallNOT ++ [Compare c]) (Clauser_NOT w)).
    by rewrite IH.
Qed.

End ClauseRendering.

(** ** The join resolver, continued *)

Section ResolverTokens.
Import Deferred.

Lemma no_space_app (s1 s2 : string) :
  no_space (s1 +:+ s2) = no_space s1 && no_space s2.
Proof.
  induction s1 as [|a s1 IH]; [reflexivity|].
  rewrite string_app_cons. simpl. rewrite IH. by rewrite andb_assoc.
Qed.

Lemma prefix_nil (s : string) : String.prefix "" s = true.
Proof. by destruct s. Qed.

(** The pieces that [strings.Split(s, " ")] returns hold no blank. *)
Lemma split_blank_no_space (s cur : string) :
  no_space cur = true ->
  Forall (fun w => no_space w = true) (strings.split_go " " 0 cur s).
Proof.
  revert cur. induction s as [|c s IH]; intros cur Hcur.
  - by constructor.
  - cbn [strings.split_go String.prefix String.length Nat.sub].
    destruct (Ascii.ascii_dec " " c) as [<- | Hc].
    + rewrite prefix_nil. constructor; [done|]. by apply IH.
    + apply IH. rewrite no_space_app, Hcur. simpl.
      destruct (Ascii.eqb_spec c " "); [congruence|done].
Qed.

Lemma add_words_inv (P : string -> Prop) (acc words : list string) :
  Forall P acc ->
  Forall (fun w => 0 < String.length w -> P w) words ->
  Forall P
    (foldl (fun splitedStmt word =>
              if bool_decide (0 < String.length word)
              then splitedStmt ++ [word] else splitedStmt) acc words).
Proof.
  revert acc. induction words as [|w words IH]; intros acc Hacc Hw; [done|].
  apply Forall_cons in Hw as [Hw Hws]. simpl. apply IH; [|done].
  case_bool_decide; [|done]. apply Forall_app. split; [done|].
  constructor; [by apply Hw | constructor].
Qed.

(** X5. Every token the resolver works on is non-empty and holds no
    blank, however the raw condition is spaced. *)
Theorem X5_tokens_are_words :
  forall query : string,
    Forall (fun tok => 0 < String.length tok /\ no_space tok = true)
           (tokens query).
Proof.
  intros query. unfold tokens.
  generalize (strings.Split query " = "). intros pieces.
  assert (H : forall acc,
             Forall (fun tok => 0 < String.length tok /\ no_space tok = true) acc ->
             Forall (fun tok => 0 < String.length tok /\ no_space tok = true)
               (foldl
                  (fun splitedStmt s =>
                     foldl
                       (fun splitedStmt word =>
                          if bool_decide (0 < String.length word)
                          then splitedStmt ++ [word] else splitedStmt)
                       splitedStmt (strings.Split s " "))
                  acc pieces)).
  { induction pieces as [|s pieces IH]; intros acc Hacc; [done|].
    simpl. apply IH. apply add_words_inv; [done|].
    eapply Forall_impl; [by apply (split_blank_no_space s "")|].
    simpl. by intros w Hw Hlen. }
  by apply H.
Qed.

End ResolverTokens.

Section ResolverCounts.
Import Deferred.

(** X6. A condition without placeholder token after its first word is
    returned as its words joined by single blanks: no word is qualified,
    the table is not used, and the [" = "] the condition was split on is
    not put back (["a.id = b.id"] becomes ["a.id b.id"]). A placeholder
    that is the first word is never looked at. *)
Theorem X6_condition_without_placeholder :
  forall (table query : string),
    (forall i : nat, tokens query !! S i <> Some "?") ->
    qualify table (tokens query) = tokens query /\
    join_stmt table query = String.concat " " (tokens query).
Proof.
  intros table query Hno.
  assert (H : qualify table (tokens query) = tokens query).
  { apply list_eq. intros i. rewrite qualify_lookup.
    rewrite bool_decide_eq_false_2 by apply Hno.
    by destruct (tokens query !! i). }
  split; [exact H|]. unfold join_stmt, strings.Join. by rewrite H.
Qed.

Lemma X6_witness :
  join_stmt "Orders" "a.id = b.id" = "a.id b.id" /\
  join_stmt "Orders" "? = id" = "? id".
Proof.
  split.
  - destruct (X6_condition_without_placeholder "Orders" "a.id = b.id") as [_ ->];
      [|reflexivity].
    intros [|[|i]]; vm_compute; discriminate.
  - destruct (X6_condition_without_placeholder "Orders" "? = id") as [_ ->];
      [|reflexivity].
    intros [|[|i]]; vm_compute; discriminate.
Defined.

Lemma sum_markers_app (l1 l2 : list string) :
  sum_markers (l1 ++ l2) = sum_markers l1 + sum_markers l2.
Proof.
  induction l1 as [|s l1 IH]; [done|]. simpl. rewrite IH. lia.
Qed.

Lemma count_markers_concat_blank (l : list string) :
  Clauses.count_markers (String.concat " " l) = sum_markers l.
Proof.
  induction l as [|s [|s' l] IH]; [done| |].
  - simpl. lia.
  - change (String.concat " " (s :: s' :: l))
      with (s +:+ " " +:+ String.concat " " (s' :: l)).
    rewrite !count_markers_app, IH. simpl. lia.
Qed.

Lemma prefix_split (sep s : string) :
  String.prefix sep s = true -> exists rest, s = sep +:+ rest.
Proof.
  revert s. induction sep as [|a sep IH]; intros s H.
  - by exists s.
  - destruct s as [|c s]; [done|].
    cbn [String.prefix] in H.
    destruct (Ascii.ascii_dec a c) as [<- | ?]; [|done].
    destruct (IH s H) as [rest ->]. by exists rest.
Qed.

(** After an occurrence of the separator, [split_go] drops the rest of
    it and starts a new piece. *)
Lemma split_go_skip (sep u rest cur : string) :
  strings.split_go sep (String.length u) cur (u +:+ rest)
  = strings.split_go sep 0 cur rest.
Proof.
  induction u as [|c u IH]; [by destruct rest|].
  rewrite string_app_cons. simpl. exact IH.
Qed.

Lemma string_length_app (s1 s2 : string) :
  String.length (s1 +:+ s2) = String.length s1 + String.length s2.
Proof.
  induction s1 as [|a s1 IH]; [done|]. rewrite string_app_cons. simpl. by rewrite IH.
Qed.

(** Splitting on a marker-free separator loses no marker. *)
Lemma split_go_markers (a : ascii) (sep' : string) (n : nat) :
  Clauses.count_markers (String a sep') = 0 ->
  forall s cur : string,
    String.length s <= n ->
    sum_markers (strings.split_go (String a sep') 0 cur s)
    = Clauses.count_markers cur + Clauses.count_markers s.
Proof.
  intros Hsep. induction n as [|n IH]; intros s cur Hn.
  - destruct s; [simpl; lia | simpl in Hn; lia].
  - destruct s as [|c s]; [simpl; lia|].
    cbn [strings.split_go].
    destruct (String.prefix (String a sep') (String c s)) eqn:Hp.
    + apply prefix_split in Hp as [rest Hrest].
      rewrite string_app_cons in Hrest. injection Hrest as -> ->.
      cbn [String.length Nat.sub]. rewrite Nat.sub_0_r.
      rewrite split_go_skip.
      cbn [sum_markers foldr]. fold (sum_markers (strings.split_go (String a sep') 0 "" rest)).
      rewrite IH.
      * change (String a (sep' +:+ rest)) with (String a sep' +:+ rest).
        rewrite count_markers_app, Hsep. simpl. lia.
      * simpl in Hn. rewrite string_length_app in Hn. lia.
    + rewrite IH by (simpl in Hn; lia).
      rewrite count_markers_app. simpl. lia.
Qed.

Lemma Split_markers (s : string) (a : ascii) (sep' : string) :
  Clauses.count_markers (String a sep') = 0 ->
  sum_markers (strings.Split s (String a sep')) = Clauses.count_markers s.
Proof.
  intros Hsep. unfold strings.Split.
  by rewrite (split_go_markers a sep' (String.length s) Hsep).
Qed.

Lemma add_words_markers (acc words : list string) :
  sum_markers
    (foldl (fun splitedStmt word =>
              if bool_decide (0 < String.length word)
              then splitedStmt ++ [word] else splitedStmt) acc words)
  = sum_markers acc + sum_markers words.
Proof.
  revert acc. induction words as [|w words IH]; intros acc; simpl; [lia|].
  rewrite IH. case_bool_decide as Hw.
  - rewrite sum_markers_app. simpl. lia.
  - destruct w; [simpl; lia | simpl in Hw; lia].
Qed.

Lemma tokens_markers (query : string) :
  sum_markers (tokens query) = Clauses.count_markers query.
Proof.
  unfold tokens.
  rewrite <- (Split_markers query " " "= ") by reflexivity.
  generalize (strings.Split query " = "). intros pieces.
  assert (H : forall acc,
             sum_markers
               (foldl
                  (fun splitedStmt s =>
                     foldl
                       (fun splitedStmt word =>
                          if bool_decide (0 < String.length word)
                          then splitedStmt ++ [word] else splitedStmt)
                       splitedStmt (strings.Split s " "))
                  acc pieces)
             = sum_markers acc + sum_markers pieces).
  { induction pieces as [|s pieces IH]; intros acc; simpl; [lia|].
    rewrite IH, add_words_markers.
    rewrite (Split_markers s " " "") by reflexivity. lia. }
  by rewrite H.
Qed.

Lemma qualify_markers (table : string) (toks : list string) :
  Clauses.count_markers table = 0 ->
  sum_markers (qualify table toks) = sum_markers toks.
Proof.
  intros Ht.
  assert (H2 : Forall2 (fun a b => Clauses.count_markers a = Clauses.count_markers b)
                       (qualify table toks) toks).
  { apply Forall2_same_length_lookup_2; [apply qualify_length|].
    intros i x y Hx Hy. rewrite qualify_lookup, Hy in Hx. simpl in Hx.
    injection Hx as <-. case_bool_decide; [|done].
    unfold qualified. rewrite !count_markers_app, Ht. simpl. lia. }
  induction H2 as [|x y l k Hxy _ IH]; [done|]. simpl. by rewrite Hxy, IH.
Qed.

(** X7. For a table name without placeholder marker, the resolved
    condition has exactly as many markers as the raw condition, whatever
    the raw condition is. *)
Theorem X7_resolver_keeps_marker_count :
  forall (table query : string),
    Clauses.count_markers table = 0 ->
    Clauses.count_markers (join_stmt table query) = Clauses.count_markers query.
Proof.
  intros table query Ht. unfold join_stmt, strings.Join.
  by rewrite count_markers_concat_blank, qualify_markers, tokens_markers.
Qed.

Lemma X7_witness :
  Clauses.count_markers (join_stmt "Orders" "id = ? AND status = ? OR x=?") = 3.
Proof.
  rewrite (X7_resolver_keeps_marker_count "Orders" "id = ? AND status = ? OR x=?");
    reflexivity.
Defined.

End ResolverCounts.

(** ** Errors *)

Section ErrorFacts.

Lemma error_eqb_refl : forall e : errors.error, errors.eqb e e = true.
Proof.
  fix IH 1. intros [t|t inner|errs]; simpl.
  - apply String.eqb_refl.
  - by rewrite String.eqb_refl, IH.
  - induction errs as [|x xs IHxs]; [done|]. by rewrite IH, IHxs.
Qed.

Lemma Is_refl (e : errors.error) : errors.Is e e = true.
Proof.
  assert (H : errors.eqb e e = true) by apply error_eqb_refl.
  destruct e; cbn [errors.Is]; by rewrite H.
Qed.

(** [errors.Join(a, err)] exposes [err]. *)
Lemma Join_exposes_last (a : option errors.error) (err : errors.error) :
  errors.exposes (errors.Join [a; Some err]) err = true.
Proof.
  destruct a as [a|]; simpl; rewrite Is_refl; simpl;
    by rewrite ?orb_true_r.
Qed.

(** [errors.Join(a, err)] exposes [a]. *)
Lemma Join_exposes_first (a : errors.error) (err : option errors.error) :
  errors.exposes (errors.Join [Some a; err]) a = true.
Proof.
  destruct err as [err|]; simpl; rewrite Is_refl; simpl;
    by rewrite ?orb_true_r.
Qed.

End ErrorFacts.

(** ** The deferred builder, continued *)

Section DeferredScopes.
Import Deferred.

Lemma Where_scope_runs (w : Clauses.Clause) (cur : option Clauses.Clause)
    (d : gorm.DB) :
  run_scope cur (ScopeWhere (Some w)) d
  = Ok (gorm.add (gorm.Where (AStr (Clauses.Clauser_ToSQL w).1)
                             (Clauses.Clauser_ToSQL w).2) d).
Proof.
  unfold run_scope, deref_ToSQL. simpl res_bind.
  rewrite Clause_ToSQL_cons. unfold Clauses.Clauser_ToSQL.
  cbn [fst snd length lookup list_lookup default drop].
  destruct (Clauses.builder w) as [|b bs].
  - reflexivity.
  - rewrite bool_decide_eq_true_2; [reflexivity|]. simpl. lia.
Qed.

(** X8. The scope that [Where] appends never returns nil for a non-nil
    clause: when it runs it adds one [Where] whose query is the fragment
    and whose arguments are the values of the clause, one argument per
    predicate; for a clause without predicate that is the empty query
    without argument. A nil clause is accepted by [Where] and makes the
    scope panic only when it runs. *)
Theorem X8_Where_scope_adds_fragment_and_values :
  forall (w : Clauses.Clause) (cur : option Clauses.Clause) (d : gorm.DB),
    run_scope cur (ScopeWhere (Some w)) d
    = Ok (gorm.add (gorm.Where (AStr (Clauses.Clauser_ToSQL w).1)
                               (Clauses.Clauser_ToSQL w).2) d) /\
    run_scope cur (ScopeWhere None) d = Panic.
Proof.
  intros w cur d. split; [apply Where_scope_runs | reflexivity].
Qed.

(** X9. The scope of [Having] renders the clause the builder holds when
    the scopes run, not the clause [Having] was given: after
    [Having(w1)] and then [Where(w2)], both the [Having] and the [Where]
    of the statement carry [w2]. *)
Theorem X9_Having_renders_the_latest_clause :
  forall (ent : entity) (w1 w2 : Clauses.Clause) (d : gorm.DB),
    let e := Where (Some w2) (Having (Some w1) (SQL ent)) in
    scopes (transaction_ e) = [ScopeHaving; ScopeWhere (Some w2)] /\
    Scopes (clause e) (scopes (transaction_ e)) d
    = Ok (gorm.add
            (gorm.Where (AStr (Clauses.Clauser_ToSQL w2).1)
                        (Clauses.Clauser_ToSQL w2).2)
            (gorm.add (gorm.Having (ASlice (Clauses.Clause_ToSQL w2)) []) d)).
Proof.
  intros ent w1 w2 d e. split; [reflexivity|].
  unfold Scopes. simpl foldl. simpl res_bind.
  exact (Where_scope_runs w2 (Some w2) _).
Qed.

End DeferredScopes.

Section DeferredJoin.
Import Deferred.

Variable Title : string -> string.

Lemma ToSQL_target (e : Entity) (w : Clauses.Clause) (t : string) :
  clause e = Some w ->
  target Title e = Some t ->
  ToSQL Title e
  = Ok (if bool_decide (Clauses.builder w = [])
        then [AStr t]
        else AStr t :: AStr (Clauses.Clauser_ToSQL w).1
               :: (Clauses.Clauser_ToSQL w).2).
Proof.
  intros Hc Ht. unfold ToSQL, target in *. rewrite Hc.
  assert (Htab : (if hasMany e then Ok (Title (TableName (table e)))
                  else match elem_type_name (table e) with
                       | Some name => Ok name
                       | None => Panic
                       end) = Ok t).
  { destruct (hasMany e); [by injection Ht as -> | by rewrite Ht]. }
  rewrite Htab. simpl res_bind.
  rewrite Clause_ToSQL_cons. unfold Clauses.Clauser_ToSQL.
  cbn [fst snd length].
  destruct (Clauses.builder w) as [|b bs]; [reflexivity|].
  rewrite bool_decide_eq_true_2 by (simpl; lia).
  by rewrite bool_decide_eq_false_2.
Qed.

(** X10. [Join] with an entity argument never builds a join condition:
    it makes a fresh builder for the entity, whose clause is empty, and
    appends a preload of the entity's struct type name. The table name
    the entity reports is not used. *)
Theorem X10_Join_on_entity_preloads :
  forall (v : entity) (name : string) (e : Entity),
    elem_type_name v = Some name ->
    Join Title (ArgEntity v) e = Ok (append_scope (ScopePreload name) e).
Proof.
  intros v name e Hv. unfold Join.
  rewrite (ToSQL_target (SQL v) (Clauses.mkClauser [] false) name);
    [reflexivity | reflexivity | exact Hv].
Qed.

(** X11. [Join] with a clause argument does not read that clause: table
    and condition come from the builder. With no predicate in the
    builder's own clause it appends a preload of the builder's table;
    otherwise it appends a join on that table whose condition is the
    builder's fragment resolved for the table, and the scope binds the
    values of the builder's clause, passed as one slice. *)
Theorem X11_Join_on_clause_uses_the_builder :
  forall (c : option Clauses.Clause) (e : Entity) (w : Clauses.Clause)
         (t : string),
    clause e = Some w ->
    target Title e = Some t ->
    let frag := (Clauses.Clauser_ToSQL w).1 in
    let values := (Clauses.Clauser_ToSQL w).2 in
    (Clauses.builder w = [] ->
     Join Title (ArgClause c) e = Ok (append_scope (ScopePreload t) e)) /\
    (Clauses.builder w <> [] ->
     exists f,
       Join Title (ArgClause c) e = Ok (append_scope f e) /\
       f = ScopeJoin t (join_stmt t frag) (AStr t :: AStr frag :: values) /\
       forall cur d,
         run_scope cur f d
         = Ok (gorm.add (gorm.Joins t (AStr (join_stmt t frag)) [ASlice values]) d)).
Proof.
  intros c e w t Hc Ht frag values. unfold Join.
  rewrite (ToSQL_target e w t Hc Ht). split; intros Hb.
  - by rewrite bool_decide_eq_true_2.
  - rewrite bool_decide_eq_false_2 by done.
    eexists. split; [reflexivity|]. split; reflexivity.
Qed.

(** X12. In the deferred revision the place of [SetTx] in the chain does
    not matter: injecting a transaction before or after a shaping call
    gives the same builder (or the same panic of [Join]). *)
Theorem X12_SetTx_commutes_with_shaping :
  forall (c : shaping) (t : transaction) (commit : bool) (e : Entity),
    (try! e' := shape Title c e in SetTx (Some t) commit e')
    = (try! e' := SetTx (Some t) commit e in shape Title c e').
Proof.
  intros c t cm [[fs otx ocm sp] er tb cl hm].
  destruct c; try reflexivity.
  simpl. unfold Join, ToSQL. simpl.
  destruct arg as [c0|v|]; simpl; [| |reflexivity].
  - destruct (if hm then Ok (Title (TableName tb))
              else match elem_type_name tb with
                   | Some name => Ok name
                   | None => Panic
                   end) as [tn|]; [simpl|reflexivity].
    destruct (deref_ToSQL cl) as [sql|]; [simpl|reflexivity].
    repeat (case_bool_decide; simpl); try reflexivity;
      destruct (as_string _); reflexivity.
  - destruct (elem_type_name v) as [tn|]; reflexivity.
Qed.

End DeferredJoin.

Lemma X10_witness :
  Deferred.Join (fun s => s)
    (Deferred.ArgEntity (Deferred.mkEntity "order_items" (Some "OrderItem")))
    (Deferred.SQL (Deferred.mkEntity "orders" (Some "Order")))
  = Ok (Deferred.append_scope (Deferred.ScopePreload "OrderItem")
          (Deferred.SQL (Deferred.mkEntity "orders" (Some "Order")))).
Proof. apply X10_Join_on_entity_preloads. reflexivity. Defined.

Lemma X11_witness :
  let w := Clauses.EQ "id" (AInt 7) in
  let e := Deferred.Where (Some w)
             (Deferred.SQL (Deferred.mkEntity "orders" (Some "Order"))) in
  Deferred.Join (fun s => s) (Deferred.ArgClause None) e
  = Ok (Deferred.append_scope
          (Deferred.ScopeJoin "Order" "Order.id = ?"
             [AStr "Order"; AStr "id = ?"; AInt 7])
          e).
Proof.
  intros w e.
  destruct (X11_Join_on_clause_uses_the_builder
              (fun s => s) None e w "Order" eq_refl eq_refl)
    as [_ H].
  destruct H as (f & -> & -> & _); [discriminate|]. reflexivity.
Defined.

(** ** Transactions of the deferred builder *)

Section DeferredTransactions.
Import Deferred.

Variable exec : gorm.event -> option errors.error.

Lemma joinError_exposes (err : errors.error) (e : Entity) (lg : list gorm.event) :
  exists r e',
    joinError (Some err) (mkState e lg) = Ok (r, mkState e' lg) /\
    errors.exposes r err = true /\
    (errors.Unwrap (error e) = None -> r = Some err /\ e' = set_error (Some err) e).
Proof.
  unfold joinError, bind, get, modify, ret. simpl.
  destruct (errors.Unwrap (error e)) eqn:Hu; simpl.
  - do 2 eexists. split; [reflexivity|]. split; [|done].
    apply Join_exposes_last.
  - do 2 eexists. split; [reflexivity|]. split; [|done].
    simpl. apply Is_refl.
Qed.

(** X13. [joinError] never loses the error it is given: the result
    exposes it, and no call reaches the data layer. When the stored
    error has no [Unwrap] method (or is nil) the result is the given
    error itself and replaces the stored one; otherwise the stored error
    is kept and the result exposes both. *)
Theorem X13_joinError_exposes_its_argument :
  forall (err : errors.error) (e : Entity) (lg : list gorm.event),
    exists r e',
      joinError (Some err) (mkState e lg) = Ok (r, mkState e' lg) /\
      errors.exposes r err = true /\
      (errors.Unwrap (error e) = None ->
       r = Some err /\ e' = set_error (Some err) e) /\
      (forall stored inner,
         error e = Some stored -> errors.Unwrap (error e) = Some inner ->
         errors.exposes r stored = true /\ e' = e).
Proof.
  intros err e lg.
  unfold joinError, bind, get, modify, ret. simpl.
  destruct (errors.Unwrap (error e)) eqn:Hu; simpl.
  - do 2 eexists. split; [reflexivity|].
    split; [apply Join_exposes_last|]. split; [done|].
    intros stored inner Hs _. rewrite Hs. split; [|done].
    apply Join_exposes_first.
  - do 2 eexists. split; [reflexivity|].
    split; [simpl; apply Is_refl|]. split; [done|].
    intros stored inner _ ?. done.
Qed.

(** X14. Without a transaction in the builder a write is one call on the
    default handle: its error is returned as it is, the builder is left
    unchanged (the error is not stored), and neither rollback nor commit
    is called, whatever the commit flag. [Update] and [Delete] pass the
    scopes, [Insert] and [InsertBatch] do not; the batch size is the
    number of entities. *)
Theorem X14_writes_outside_a_transaction :
  forall (e : Entity) (lg : list gorm.event) (entities : list entity),
    tx (transaction_ e) = None ->
    let one (d : gorm.DB) (a : gorm.action) :=
      Ok (exec (gorm.mkEvent d a), mkState e (lg ++ [gorm.mkEvent d a])) in
    Insert exec (mkState e lg) = one db gorm.Create /\
    InsertBatch exec entities (mkState e lg)
    = one db (gorm.CreateInBatches (length entities)) /\
    forall d,
      Scopes (clause e) (scopes (transaction_ e)) db = Ok d ->
      Update exec (mkState e lg) = one d gorm.Updates /\
      Delete exec (mkState e lg) = one d gorm.Delete.
Proof.
  intros e lg entities Htx one.
  unfold Insert, InsertBatch, Update, Delete, bind, get. simpl.
  rewrite Htx. repeat split; try reflexivity;
    by apply scoped_Ok.
Qed.

(** What follows a write that succeeded on transaction [t]. *)
Lemma after_write_success (e : Entity) (lg : list gorm.event) (t : gorm.DB) :
  tx (transaction_ e) = Some t ->
  let cev := gorm.mkEvent t gorm.Commit in
  exists r e',
    after_write exec None (mkState e lg)
    = Ok (r, mkState e' (lg ++ (if commit (transaction_ e) then [cev] else []))) /\
    match (if commit (transaction_ e) then exec cev else None) with
    | None => r = None /\ e' = e
    | Some ce => errors.exposes r ce = true
    end.
Proof.
  intros Htx cev.
  destruct e as [[fs otx [|] sp] er tb cl hm]; simpl in Htx; subst otx;
    cbn [commit transaction_].
  - unfold after_write, commit_, the_tx, bind, get, lift, finish, ret. cbn.
    fold cev. destruct (exec cev) as [ce|] eqn:Hce.
    + match goal with
      | |- context [joinError _ (mkState ?e0 ?l0)] =>
          destruct (joinError_exposes ce e0 l0) as (r & e' & -> & Hr & _)
      end.
      by exists r, e'.
    + by eexists None, _.
  - eexists None, _. by rewrite app_nil_r.
Qed.

(** X15. A write that succeeds inside a transaction is followed by a
    commit exactly when the commit flag of the builder is set, on the
    same transaction. Without commit, or when the commit succeeds, the
    method returns nil and leaves the builder as it was; when the commit
    fails the returned error exposes the commit error. [Update] runs the
    scopes on the transaction, [Delete] does not. *)
Theorem X15_successful_write_commits_iff_flag :
  forall (e : Entity) (lg : list gorm.event) (t : gorm.DB)
         (entities : list entity),
    tx (transaction_ e) = Some t ->
    let cev := gorm.mkEvent t gorm.Commit in
    let committed (d : gorm.DB) (a : gorm.action)
                  (m : M (option errors.error)) :=
      exec (gorm.mkEvent d a) = None ->
      exists r e',
        m (mkState e lg)
        = Ok (r, mkState e'
                   (lg ++ gorm.mkEvent d a
                       :: (if commit (transaction_ e) then [cev] else []))) /\
        match (if commit (transaction_ e) then exec cev else None) with
        | None => r = None /\ e' = e
        | Some ce => errors.exposes r ce = true
        end in
    committed t gorm.Create (Insert exec) /\
    committed t (gorm.CreateInBatches (length entities))
              (InsertBatch exec entities) /\
    committed t gorm.Delete (Delete exec) /\
    forall d, Scopes (clause e) (scopes (transaction_ e)) t = Ok d ->
              committed d gorm.Updates (Update exec).
Proof.
  intros e lg t entities Htx cev committed.
  assert (Hfin : forall a (k : option errors.error -> M (option errors.error)),
             exec (gorm.mkEvent t a) = None ->
             bind (finish exec t a) k (mkState e lg)
             = k None (mkState e (lg ++ [gorm.mkEvent t a]))).
  { intros a k Ha. unfold bind, finish. simpl. by rewrite Ha. }
  assert (Haw : forall d a,
             exists r e',
               after_write exec None (mkState e (lg ++ [gorm.mkEvent d a]))
               = Ok (r, mkState e'
                          (lg ++ gorm.mkEvent d a
                              :: (if commit (transaction_ e) then [cev] else []))) /\
               match (if commit (transaction_ e) then exec cev else None) with
               | None => r = None /\ e' = e
               | Some ce => errors.exposes r ce = true
               end).
  { intros d a.
    destruct (after_write_success e (lg ++ [gorm.mkEvent d a]) t Htx)
      as (r & e' & H1 & H2).
    exists r, e'. split; [|exact H2]. rewrite H1. by rewrite <- app_assoc. }
  repeat split.
  - intros Ha. unfold Insert. unfold bind at 1, get. simpl. rewrite Htx.
    rewrite (Hfin _ _ Ha). apply Haw.
  - intros Ha. unfold InsertBatch. unfold bind at 1, get. simpl. rewrite Htx.
    rewrite (Hfin _ _ Ha). apply Haw.
  - intros Ha. unfold Delete. unfold bind at 1, get. simpl. rewrite Htx.
    rewrite (Hfin _ _ Ha). apply Haw.
  - intros d Hd Ha. unfold Update. unfold bind at 1, get. simpl. rewrite Htx.
    unfold bind. rewrite (scoped_Ok _ _ _ _ _ _ Hd), Ha. apply Haw.
Qed.

End DeferredTransactions.

Lemma X14_witness :
  let e := Deferred.SQL (Deferred.mkEntity "orders" (Some "Order")) in
  Deferred.Insert (fun _ => Some E1) (Deferred.mkState e [])
  = Ok (Some E1, Deferred.mkState e [gorm.mkEvent db gorm.Create]).
Proof.
  intros e.
  destruct (X14_writes_outside_a_transaction (fun _ => Some E1) e [] [] eq_refl)
    as [H _].
  exact H.
Defined.

Lemma X15_witness :
  let ent := Deferred.mkEntity "orders" (Some "Order") in
  exists r e',
    Deferred.Insert (fun _ => None) (Deferred.mkState (active ent) [])
    = Ok (r, Deferred.mkState e'
               [gorm.mkEvent begun gorm.Create; gorm.mkEvent begun gorm.Commit]) /\
    r = None /\ e' = active ent.
Proof.
  intros ent.
  destruct (X15_successful_write_commits_iff_flag
              (fun _ => None) (active ent) [] begun [] eq_refl)
    as (H & _).
  destruct (H eq_refl) as (r & e' & Hrun & Hr).
  exists r, e'. split; [exact Hrun | exact Hr].
Defined.

Section DeferredFailures.
Import Deferred.

Variable exec : gorm.event -> option errors.error.

(** What follows a write that failed with [err] on transaction [t] when
    no savepoint is set and the rollback succeeds. *)
Lemma after_write_rolled_back (e : Entity) (lg : list gorm.event)
    (t : gorm.DB) (err : errors.error) :
  tx (transaction_ e) = Some t ->
  savePoint (transaction_ e) = "" ->
  errors.Unwrap (error e) = None ->
  exec (gorm.mkEvent t gorm.Rollback) = None ->
  after_write exec (Some err) (mkState e lg)
  = Ok (Some err,
        mkState (set_error (Some err) e) (lg ++ [gorm.mkEvent t gorm.Rollback])).
Proof.
  destruct e as [[fs otx cm sp] er tb cl hm]. simpl.
  intros -> -> Hu Hrb.
  unfold after_write, rollback, the_tx, joinError, bind, get, lift, finish,
    modify, ret.
  cbn. rewrite bool_decide_eq_false_2 by lia. cbn.
  rewrite Hrb. cbn. by rewrite Hu.
Qed.

(** X16. When a write fails inside a transaction and the rollback
    succeeds (no savepoint, no wrapping error stored in the builder),
    the method returns the write error itself and stores it in the
    builder; the data layer sees the write and one full rollback, and no
    commit even when the commit flag is set. *)
Theorem X16_failed_write_returns_the_write_error :
  forall (e : Entity) (lg : list gorm.event) (t : gorm.DB)
         (entities : list entity) (err : errors.error),
    tx (transaction_ e) = Some t ->
    savePoint (transaction_ e) = "" ->
    errors.Unwrap (error e) = None ->
    exec (gorm.mkEvent t gorm.Rollback) = None ->
    let failed (d : gorm.DB) (a : gorm.action) (m : M (option errors.error)) :=
      exec (gorm.mkEvent d a) = Some err ->
      m (mkState e lg)
      = Ok (Some err,
            mkState (set_error (Some err) e)
                    (lg ++ [gorm.mkEvent d a; gorm.mkEvent t gorm.Rollback])) in
    failed t gorm.Create (Insert exec) /\
    failed t (gorm.CreateInBatches (length entities)) (InsertBatch exec entities) /\
    failed t gorm.Delete (Delete exec) /\
    forall d, Scopes (clause e) (scopes (transaction_ e)) t = Ok d ->
              failed d gorm.Updates (Update exec).
Proof.
  intros e lg t entities err Htx Hsp Hu Hrb failed.
  assert (Hfin : forall a (k : option errors.error -> M (option errors.error)),
             exec (gorm.mkEvent t a) = Some err ->
             bind (finish exec t a) k (mkState e lg)
             = k (Some err) (mkState e (lg ++ [gorm.mkEvent t a]))).
  { intros a k Ha. unfold bind, finish. simpl. by rewrite Ha. }
  assert (Haw : forall d a,
             after_write exec (Some err) (mkState e (lg ++ [gorm.mkEvent d a]))
             = Ok (Some err,
                   mkState (set_error (Some err) e)
                     (lg ++ [gorm.mkEvent d a; gorm.mkEvent t gorm.Rollback]))).
  { intros d a. rewrite (after_write_rolled_back _ _ t err Htx Hsp Hu Hrb).
    by rewrite <- app_assoc. }
  repeat split.
  - intros Ha. unfold Insert. unfold bind at 1, get. simpl. rewrite Htx.
    rewrite (Hfin _ _ Ha). apply Haw.
  - intros Ha. unfold InsertBatch. unfold bind at 1, get. simpl. rewrite Htx.
    rewrite (Hfin _ _ Ha). apply Haw.
  - intros Ha. unfold Delete. unfold bind at 1, get. simpl. rewrite Htx.
    rewrite (Hfin _ _ Ha). apply Haw.
  - intros d Hd Ha. unfold Update. unfold bind at 1, get. simpl. rewrite Htx.
    unfold bind. rewrite (scoped_Ok _ _ _ _ _ _ Hd), Ha. apply Haw.
Qed.

(** X17. [InsertTx], [UpdateTx] and [DeleteTx] begin a transaction of
    their own, which replaces any transaction the builder held. When
    the write fails and the rollback succeeds (no savepoint), they
    return the transaction and a nil error: the write error reaches
    neither the caller nor the builder. *)
Theorem X17_Tx_methods_swallow_a_rolled_back_failure :
  forall (e : Entity) (lg : list gorm.event) (err : errors.error),
    savePoint (transaction_ e) = "" ->
    exec (gorm.mkEvent begun gorm.Rollback) = None ->
    let swallowed (d : gorm.DB) (a : gorm.action)
                  (m : M (bool * option errors.error)) :=
      exec (gorm.mkEvent d a) = Some err ->
      m (mkState e lg)
      = Ok ((true, None),
            mkState (set_tx (Some begun) e)
                    (lg ++ [gorm.mkEvent d a; gorm.mkEvent begun gorm.Rollback])) in
    swallowed begun gorm.Create (InsertTx exec) /\
    forall d, Scopes (clause e) (scopes (transaction_ e)) begun = Ok d ->
              swallowed d gorm.Updates (UpdateTx exec) /\
              swallowed d gorm.Delete (DeleteTx exec).
Proof.
  intros e lg err Hsp Hrb swallowed.
  destruct e as [[fs otx cm sp] er tb cl hm]. simpl in Hsp. subst sp.
  unfold swallowed. repeat split.
  - intros Ha.
    unfold InsertTx, rollback, the_tx, bind, get, lift, finish, modify, ret.
    cbn. fold begun. rewrite Ha. cbn. rewrite bool_decide_eq_false_2 by lia.
    cbn. fold begun. by rewrite Hrb, <- app_assoc.
  - intros Ha.
    unfold UpdateTx, scoped, rollback, the_tx, bind, get, lift, finish, modify, ret.
    cbn in *. fold begun. rewrite H. cbn. rewrite Ha. cbn.
    rewrite bool_decide_eq_false_2 by lia. cbn. fold begun.
    by rewrite Hrb, <- app_assoc.
  - intros Ha.
    unfold DeleteTx, scoped, rollback, the_tx, bind, get, lift, finish, modify, ret.
    cbn in *. fold begun. rewrite H. cbn. rewrite Ha. cbn.
    rewrite bool_decide_eq_false_2 by lia. cbn. fold begun.
    by rewrite Hrb, <- app_assoc.
Qed.

(** X18. When the write of a [...Tx] method succeeds, the method commits
    only if the commit flag of the builder is set, which [SQL] leaves
    unset: on a fresh builder the begun transaction is returned open.
    With the flag set the result of the commit is returned as it is and
    is not stored in the builder. *)
Theorem X18_Tx_methods_commit_iff_flag :
  forall (e : Entity) (lg : list gorm.event),
    let cev := gorm.mkEvent begun gorm.Commit in
    let done (d : gorm.DB) (a : gorm.action)
             (m : M (bool * option errors.error)) :=
      exec (gorm.mkEvent d a) = None ->
      m (mkState e lg)
      = Ok ((true, if commit (transaction_ e) then exec cev else None),
            mkState (set_tx (Some begun) e)
                    (lg ++ gorm.mkEvent d a
                        :: (if commit (transaction_ e) then [cev] else []))) in
    done begun gorm.Create (InsertTx exec) /\
    forall d, Scopes (clause e) (scopes (transaction_ e)) begun = Ok d ->
              done d gorm.Updates (UpdateTx exec) /\
              done d gorm.Delete (DeleteTx exec).
Proof.
  intros [[fs otx [|] sp] er tb cl hm] lg cev done; unfold done;
    repeat split; intros;
    unfold InsertTx, UpdateTx, DeleteTx, scoped, commit_, the_tx, bind, get,
      lift, finish, modify, ret;
    cbn in *; fold begun;
    repeat match goal with
           | H : _ = Ok _ |- _ => rewrite H; cbn; fold begun
           | H : exec _ = None |- _ => rewrite H; cbn; fold begun
           end;
    by rewrite <- ?app_assoc.
Qed.

End DeferredFailures.

Lemma X16_witness :
  let ent := Deferred.mkEntity "orders" (Some "Order") in
  let exec := fun ev : gorm.event =>
                match gorm.act ev with
                | gorm.Create => Some E1
                | _ => None
                end in
  Deferred.Insert exec (Deferred.mkState (active ent) [])
  = Ok (Some E1,
        Deferred.mkState (Deferred.set_error (Some E1) (active ent))
          [gorm.mkEvent begun gorm.Create; gorm.mkEvent begun gorm.Rollback]).
Proof.
  intros ent exec.
  destruct (X16_failed_write_returns_the_write_error
              exec (active ent) [] begun [] E1 eq_refl eq_refl eq_refl eq_refl)
    as [H _].
  exact (H eq_refl).
Defined.

Lemma X17_witness :
  let ent := Deferred.mkEntity "orders" (Some "Order") in
  let exec := fun ev : gorm.event =>
                match gorm.act ev with
                | gorm.Create => Some E1
                | _ => None
                end in
  Deferred.InsertTx exec (Deferred.mkState (Deferred.SQL ent) [])
  = Ok ((true, None),
        Deferred.mkState (Deferred.set_tx (Some begun) (Deferred.SQL ent))
          [gorm.mkEvent begun gorm.Create; gorm.mkEvent begun gorm.Rollback]).
Proof.
  intros ent exec.
  destruct (X17_Tx_methods_swallow_a_rolled_back_failure
              exec (Deferred.SQL ent) [] E1 eq_refl eq_refl)
    as [H _].
  exact (H eq_refl).
Defined.

(** ** Reads and the reach of the builder *)

Section DeferredReads.
Import Deferred.

Variable exec : gorm.event -> option errors.error.

Lemma joinError_keeps_transaction (err : option errors.error) (s : state)
    (r : option errors.error) (s' : state) :
  joinError err s = Ok (r, s') ->
  transaction_ (ent s') = transaction_ (ent s) /\ log s' = log s.
Proof.
  unfold joinError, bind, get, modify, ret. destruct s as [e lg]. simpl.
  destruct (errors.Unwrap (error e)); simpl; by intros [= <- <-].
Qed.

(** X19. [Find], [One], [Count], [Query] and [Exec] run on the default
    handle, also when the builder holds a transaction: the one call they
    make carries the default connection, and they leave scopes,
    transaction, commit flag and savepoint of the builder as they were. *)
Theorem X19_reads_bypass_the_transaction :
  forall (t : terminal) (e : Entity) (lg : list gorm.event)
         (r : option errors.error) (s' : state),
    is_read t = true ->
    run_terminal exec t (mkState e lg) = Ok (r, s') ->
    transaction_ (ent s') = transaction_ e /\
    exists d,
      log s' = lg ++ [gorm.mkEvent d (finisher t)] /\
      gorm.on d = gorm.Default.
Proof.
  intros t e lg r s' Hread Hrun.
  assert (Hr : read exec (finisher t) (mkState e lg) = Ok (r, s')).
  { destruct (reads_unfold exec (mkState e lg)) as (HF & HO & HC & HQ & HE).
    destruct t; try discriminate; simpl in *;
      by rewrite <- ?HF, <- ?HO, <- ?HC, <- ?HQ, <- ?HE. }
  clear Hrun. unfold read in Hr.
  destruct (Scopes (clause e) (scopes (transaction_ e)) db) as [d|] eqn:Hd.
  - rewrite (scoped_Ok _ _ _ _ _ _ Hd) in Hr.
    destruct (Scopes_in_order _ _ _ _ Hd) as (_ & _ & Hon & _).
    destruct (exec (gorm.mkEvent d (finisher t))) as [err|].
    + apply joinError_keeps_transaction in Hr as [Ht Hl]. simpl in *.
      split; [done|]. by exists d.
    + injection Hr as <- <-. simpl. split; [done|]. by exists d.
  - by rewrite scoped_Panic in Hr.
Qed.

End DeferredReads.

Lemma X19_witness :
  let ent := Deferred.mkEntity "orders" (Some "Order") in
  exists r s',
    Deferred.Find (fun _ => None) (Deferred.mkState (active ent) []) = Ok (r, s') /\
    Deferred.transaction_ (Deferred.ent s') = Deferred.transaction_ (active ent) /\
    exists d, Deferred.log s' = [gorm.mkEvent d gorm.Find] /\
              gorm.on d = gorm.Default.
Proof.
  intros ent. eexists. eexists. split; [reflexivity|].
  eapply (X19_reads_bypass_the_transaction
            (fun _ => None) TFind (active ent) [] _ _ eq_refl).
  reflexivity.
Defined.

Section Savepoints.
Import Deferred.

Variable Title : string -> string.
Variable exec : gorm.event -> option errors.error.

Ltac close_log :=
  first
    [ by (exists []; split; [by rewrite app_nil_r | constructor])
    | by (rewrite <- ?app_assoc; simpl; eexists; split; [reflexivity|];
          repeat constructor; intros ?; discriminate) ].

Lemma call_keeps_savePoint (m : method) (e : Entity) (lg : list gorm.event)
    (s' : state) :
  savePoint (transaction_ e) = "" ->
  call Title exec m (mkState e lg) = Ok (tt, s') ->
  savePoint (transaction_ (ent s')) = "" /\
  exists evs,
    log s' = lg ++ evs /\
    Forall (fun ev => forall name, gorm.act ev <> gorm.RollbackTo name) evs.
Proof.
  intros Hsp Hcall. destruct m.
  1: { unfold call, shaping_call, bind, get, lift, modify in Hcall.
       simpl in Hcall.
       destruct (shape Title c e) as [e1|] eqn:Hc; [|done]. simpl in Hcall.
       injection Hcall as <-. simpl.
       apply shape_spec in Hc as (_ & _ & _ & _ & _ & ->).
       split; [done|]. close_log. }
  1: { destruct e as [[fs otx cm sp] er tb cl hm]. simpl in Hsp. subst sp.
       destruct t as [t|]; [|done]. injection Hcall as <-. simpl.
       split; [done|]. close_log. }
  1: { injection Hcall as <-. simpl. split; [done|]. close_log. }
  all: destruct e as [[fs otx cm sp] er tb cl hm]; simpl in Hsp; subst sp.
  all: unfold call, drop_result, Find, One, Count, Insert, InsertBatch, Update,
         Delete, InsertTx, UpdateTx, DeleteTx, Query, Exec, after_write,
         scoped, commit_, rollback, the_tx, joinError, bind, get, lift,
         finish, modify, ret in Hcall.
  all: cbn in Hcall.
  all: rewrite ?bool_decide_eq_false_2 in Hcall by lia.
  all: repeat (case_match; cbn in *; simplify_eq/=;
               rewrite ?bool_decide_eq_false_2 in * by lia).
  all: try (split; [done|]; close_log).
Qed.

(** X20. The savepoint of a builder made by [SQL] stays empty whatever
    exported methods are called on it, in any order and with any
    outcome of the data layer: no method sets it. As a consequence a
    rollback is always a full rollback; [RollbackTo] never reaches the
    data layer. *)
Theorem X20_savepoints_are_never_used :
  forall s : state,
    reachable Title exec s ->
    savePoint (transaction_ (ent s)) = "" /\
    Forall (fun ev => forall name, gorm.act ev <> gorm.RollbackTo name) (log s).
Proof.
  induction 1 as [ent|s s' m Hs [IHsp IHlog] Hcall].
  - split; [reflexivity | constructor].
  - destruct s as [e lg].
    destruct (call_keeps_savePoint m e lg s' IHsp Hcall) as (Hsp & evs & -> & Hevs).
    split; [done|]. apply Forall_app. by split.
Qed.

End Savepoints.

Lemma X20_witness :
  let exec := fun ev : gorm.event =>
                match gorm.act ev with
                | gorm.Updates => Some E1
                | _ => None
                end in
  exists s,
    reachable (fun x => x) exec s /\
    Deferred.log s
    = [gorm.mkEvent (gorm.add (gorm.Limit 1%Z) begun) gorm.Updates;
       gorm.mkEvent begun gorm.Rollback] /\
    Deferred.savePoint (Deferred.transaction_ (Deferred.ent s)) = "".
Proof.
  intros exec.
  assert (Hr : reachable (fun x => x) exec
                 (Deferred.mkState
                    (Deferred.set_tx (Some begun)
                       (Deferred.Limit 1%Z
                          (Deferred.SQL (Deferred.mkEntity "orders" (Some "Order")))))
                    [gorm.mkEvent (gorm.add (gorm.Limit 1%Z) begun) gorm.Updates;
                     gorm.mkEvent begun gorm.Rollback])).
  { eapply (reachable_call _ _ _ _ MUpdateTx).
    - eapply (reachable_call _ _ _ _ (MShape (Deferred.CallLimit 1%Z))).
      + apply (reachable_SQL _ _ (Deferred.mkEntity "orders" (Some "Order"))).
      + reflexivity.
    - reflexivity. }
  eexists. split; [exact Hr|]. split; [reflexivity|].
  exact (proj1 (X20_savepoints_are_never_used (fun x => x) exec _ Hr)).
Defined.


(** ** The eager revision, continued *)

Section EagerShaping.
Import Eager.

Lemma chain_spec (c : gorm.clause) (e e' : Entity) :
  chain c e = Ok e' ->
  exists d,
    db_ (transaction_ e) = Some d /\
    e' = set_db (Some (gorm.add c d)) e.
Proof.
  unfold chain, gorm.chain.
  destruct (db_ (transaction_ e)) as [d|]; [|done].
  simpl. intros [= <-]. by exists d.
Qed.

Lemma shape_adds_one_clause (c : shaping) (e e' : Entity) :
  shape c e = Ok e' ->
  exists d cl,
    db_ (transaction_ e) = Some d /\
    db_ (transaction_ e') = Some (gorm.add cl d) /\
    savePoint (transaction_ e') = savePoint (transaction_ e).
Proof.
  destruct c; simpl;
    unfold Select, Where, OrderBy, Ascending, Descending, Offset, Limit,
      GroupBy, Having, Join;
    repeat case_bool_decide; try done;
    try (destruct (deref_ToSQL _); [simpl|done]);
    intros (d & Hd & ->)%chain_spec; exists d; eexists;
    (split; [exact Hd|]); split; reflexivity.
Qed.

(** X21. In the eager revision every shaping call that returns has added
    exactly one clause to the handle the builder holds, behind the
    clauses that were there, on the same connection: after a sequence of
    calls the statement has grown by as many clauses as there were
    calls, and [Find] runs on that handle, inside the transaction. *)
Theorem X21_eager_shaping_is_immediate :
  forall (exec : gorm.event -> option errors.error)
         (cs : list shaping) (e e' : Entity) (lg : list gorm.event),
    shapes cs e = Ok e' ->
    cs <> [] ->
    exists d cls,
      db_ (transaction_ e) = Some d /\
      length cls = length cs /\
      db_ (transaction_ e')
      = Some (gorm.mkDB (gorm.on d) (gorm.statement d ++ cls)) /\
      exists r s',
        Find exec (mkState e' lg) = Ok (r, s') /\
        log s'
        = lg ++ [gorm.mkEvent (gorm.mkDB (gorm.on d) (gorm.statement d ++ cls))
                              gorm.Find].
Proof.
  intros exec cs e e' lg Hcs Hne.
  assert (H : exists d cls,
             db_ (transaction_ e) = Some d /\
             length cls = length cs /\
             db_ (transaction_ e')
             = Some (gorm.mkDB (gorm.on d) (gorm.statement d ++ cls))).
  { clear lg. revert e Hcs. induction cs as [|c cs IH]; [done|].
    intros e Hcs. simpl in Hcs.
    destruct (shape c e) as [e1|] eqn:Hc; [|done]. simpl in Hcs.
    apply shape_adds_one_clause in Hc as (d & cl & Hd & Hd1 & _).
    destruct cs as [|c2 cs].
    - injection Hcs as <-. exists d, [cl]. by rewrite Hd1.
    - destruct (IH ltac:(done) e1 Hcs) as (d1 & cls & Hd1' & Hlen & He').
      rewrite Hd1 in Hd1'. injection Hd1' as <-.
      exists d, (cl :: cls). split; [done|]. split; [simpl; by rewrite Hlen|].
      rewrite He'. simpl. by rewrite <- app_assoc. }
  destruct H as (d & cls & Hd & Hlen & He').
  exists d, cls. repeat (split; [done|]).
  unfold Find, bind, finish. simpl. rewrite He'. simpl.
  destruct (exec _) as [err|]; simpl.
  - unfold joinError, bind, get, modify, ret. simpl.
    destruct (errors.Unwrap (error e')); simpl; by eauto.
  - by eauto.
Qed.

Lemma X21_witness :
  exists r s',
    Find (fun _ => None)
         (mkState (set_db
                     (Some (gorm.mkDB gorm.Tx [gorm.Limit 5%Z; gorm.Offset 10%Z]))
                     SQL) [])
    = Ok (r, s') /\
    log s'
    = [gorm.mkEvent (gorm.mkDB gorm.Tx [gorm.Limit 5%Z; gorm.Offset 10%Z])
                    gorm.Find].
Proof.
  destruct (X21_eager_shaping_is_immediate
              (fun _ => None) [CallLimit 5%Z; CallOffset 10%Z] SQL
              (set_db (Some (gorm.mkDB gorm.Tx [gorm.Limit 5%Z; gorm.Offset 10%Z]))
                      SQL)
              [] eq_refl ltac:(discriminate))
    as (d & cls & Hd & Hlen & He' & r & s' & HF & Hlog).
  exists r, s'. split; [exact HF|].
  rewrite Hlog. simpl in Hd. injection Hd as <-.
  simpl in He'. injection He' as <-. reflexivity.
Defined.

(** [strings.CutSuffix] removes a suffix that is there. *)
Lemma strip_suffix_app (s suffix : string) :
  strings.strip_suffix (s +:+ suffix) suffix = Some s.
Proof.
  induction s as [|c s IH].
  - rewrite string_app_nil_l. destruct suffix; simpl.
    + reflexivity.
    + by rewrite Ascii.eqb_refl, String.eqb_refl.
  - rewrite string_app_cons. cbn [strings.strip_suffix].
    destruct (String.eqb_spec (String c (s +:+ suffix)) suffix) as [Heq|_].
    + apply (f_equal String.length) in Heq. simpl in Heq.
      rewrite string_length_app in Heq. lia.
    + by rewrite IH.
Qed.

(** X22. [Ascending] and [Descending] panic as long as no [OrderBy] with
    a non-empty name has been called. After [OrderBy(name)],
    [Ascending] adds a second [Order] clause, [name + " ASC"], behind
    the plain one and leaves the recorded name as it is. *)
Theorem X22_direction_needs_OrderBy :
  forall (e : Entity) (d : gorm.DB) (name : string),
    db_ (transaction_ e) = Some d ->
    (orderBy (transaction_ e) = "" ->
     Ascending e = Panic /\ Descending e = Panic) /\
    (try! e1 := OrderBy "" e in Ascending e1) = Panic /\
    (0 < String.length name ->
     (try! e1 := OrderBy name e in Ascending e1)
     = Ok (set_db (Some (gorm.add (gorm.Order (name +:+ " ASC"))
                                  (gorm.add (gorm.Order name) d)))
                  (set_orderBy name e))).
Proof.
  intros [[od sp ob] er cl] d name. simpl. intros ->.
  split; [|split].
  - by intros ->.
  - reflexivity.
  - intros Hname. unfold OrderBy, Ascending, chain. simpl.
    rewrite bool_decide_eq_false_2 by lia. reflexivity.
Qed.

Lemma X22_witness :
  (try! e1 := OrderBy "age" SQL in Ascending e1)
  = Ok (set_db (Some (gorm.mkDB gorm.Tx [gorm.Order "age"; gorm.Order "age ASC"]))
               (set_orderBy "age" SQL)).
Proof.
  destruct (X22_direction_needs_OrderBy SQL (gorm.Begin db) "age" eq_refl)
    as (_ & _ & H).
  rewrite H; [reflexivity | simpl; lia].
Defined.

(** X23. [Descending] drops a trailing [" ASC"] from the recorded name
    before it orders: after [OrderBy(col + " ASC")] it adds
    [col + " DESC"] and records [col]. *)
Theorem X23_Descending_cuts_ASC :
  forall (e : Entity) (d : gorm.DB) (col : string),
    db_ (transaction_ e) = Some d ->
    (try! e1 := OrderBy (col +:+ " ASC") e in Descending e1)
    = Ok (set_db (Some (gorm.add (gorm.Order (col +:+ " DESC"))
                                 (gorm.add (gorm.Order (col +:+ " ASC")) d)))
                 (set_orderBy col e)).
Proof.
  intros [[od sp ob] er cl] d col. simpl. intros ->.
  unfold OrderBy, Descending, chain. simpl.
  rewrite bool_decide_eq_false_2
    by (rewrite string_length_app; simpl; lia).
  unfold strings.CutSuffix, Clauses.ASCOperator.
  by rewrite strip_suffix_app.
Qed.

Lemma X23_witness :
  (try! e1 := OrderBy "age ASC" SQL in Descending e1)
  = Ok (set_db (Some (gorm.mkDB gorm.Tx [gorm.Order "age ASC"; gorm.Order "age DESC"]))
               (set_orderBy "age" SQL)).
Proof.
  exact (X23_Descending_cuts_ASC SQL (gorm.Begin db) "age" eq_refl).
Defined.

End EagerShaping.

Section EagerWrites.
Import Eager.

Variable exec : gorm.event -> option errors.error.

(** X24. In the eager revision a write that fails with an error without
    [Unwrap] method returns whatever the rollback returned, and nothing
    of the write error: nil when the rollback succeeded. The builder
    ends up holding the rollback's result as well; commit is not called. *)
Theorem X24_eager_failed_write_returns_the_rollback_result :
  forall (e : Entity) (lg : list gorm.event) (d : gorm.DB)
         (err : errors.error) (commit_flag : bool),
    db_ (transaction_ e) = Some d ->
    savePoint (transaction_ e) = "" ->
    errors.Unwrap (Some err) = None ->
    errors.Unwrap (exec (gorm.mkEvent d gorm.Rollback)) = None ->
    let rb := exec (gorm.mkEvent d gorm.Rollback) in
    let failed (a : gorm.action) (m : M (option errors.error)) :=
      exec (gorm.mkEvent d a) = Some err ->
      m (mkState e lg)
      = Ok (rb, mkState (set_error rb e)
                        (lg ++ [gorm.mkEvent d a; gorm.mkEvent d gorm.Rollback])) in
    failed gorm.Create (Insert exec commit_flag) /\
    failed gorm.Updates (Update exec commit_flag) /\
    failed gorm.Delete (Delete exec commit_flag).
Proof.
  intros e lg d err cf Hd Hsp Hu Hurb rb failed.
  destruct e as [[od sp ob] er cl]. simpl in Hd, Hsp. subst od sp.
  subst rb failed. cbv beta.
  destruct (exec (gorm.mkEvent d gorm.Rollback)) as [r|] eqn:Hrb.
  all: unfold Insert, Update, Delete, rollback, joinError, bind, get,
         finish, modify, ret.
  all: repeat split; intros Ha; cbn; rewrite Ha; cbn;
         rewrite bool_decide_eq_false_2 by lia; cbn; rewrite Hrb; cbn.
  all: destruct err; try discriminate Hu; cbn.
  all: try (destruct r; try discriminate Hurb; cbn).
  all: by rewrite <- app_assoc.
Qed.

End EagerWrites.

Lemma X24_witness :
  let exec := fun ev : gorm.event =>
                match gorm.act ev with
                | gorm.Create => Some E1
                | _ => None
                end in
  Eager.Insert exec true (Eager.mkState Eager.SQL [])
  = Ok (None,
        Eager.mkState Eager.SQL
          [gorm.mkEvent begun gorm.Create; gorm.mkEvent begun gorm.Rollback]).
Proof.
  intros exec.
  destruct (X24_eager_failed_write_returns_the_rollback_result
              exec Eager.SQL [] begun E1 true eq_refl eq_refl eq_refl eq_refl)
    as [H _].
  exact (H eq_refl).
Defined.

(** ** Nil clauses, the guard of [SetTx], eager commits *)

Section NilClauses.
Import Deferred.

Variable exec : gorm.event -> option errors.error.

Lemma Scopes_ends_in_panic (cur : option Clauses.Clause) (fs : list scope)
    (f : scope) (d : gorm.DB) :
  (forall d', run_scope cur f d' = Panic) ->
  Scopes cur (fs ++ [f]) d = Panic.
Proof.
  intros Hf. rewrite Scopes_snoc.
  destruct (Scopes cur fs d); [apply Hf | reflexivity].
Qed.

(** X25. The deferred [Where] and [Having] accept a nil clause without
    complaint; the panic comes at the terminal call. Every terminal
    method that takes the scopes then panics before any call reaches
    the data layer. *)
Theorem X25_nil_clause_panics_at_the_terminal_call :
  forall (t : terminal) (e : Entity) (lg : list gorm.event),
    (t = TDeleteOutsideTx -> tx (transaction_ e) = None) ->
    run_terminal exec t (mkState (Where None e) lg) = Panic /\
    run_terminal exec t (mkState (Having None e) lg) = Panic.
Proof.
  intros t e lg Ht.
  assert (Htx : forall e1, tx (transaction_ e1) = tx (transaction_ e) ->
                           t = TDeleteOutsideTx -> tx (transaction_ e1) = None).
  { intros e1 -> H. by apply Ht. }
  split.
  - pose proof (terminal_spec exec t (Where None e) lg) as H.
    change (scopes (transaction_ (Where None e)))
      with (scopes (transaction_ e) ++ [ScopeWhere None]) in H.
    rewrite Scopes_ends_in_panic in H by done.
    apply H, Htx. by destruct e as [[] ? ? ? ?].
  - pose proof (terminal_spec exec t (Having None e) lg) as H.
    change (scopes (transaction_ (Having None e)))
      with (scopes (transaction_ e) ++ [ScopeHaving]) in H.
    change (clause (Having None e)) with (@None Clauses.Clause) in H.
    rewrite Scopes_ends_in_panic in H by done.
    apply H, Htx. by destruct e as [[] ? ? ? ?].
Qed.

End NilClauses.

Lemma X25_witness :
  Deferred.Find (fun _ => None)
    (Deferred.mkState
       (Deferred.Where None (Deferred.SQL (Deferred.mkEntity "orders" (Some "Order"))))
       [])
  = Panic.
Proof.
  destruct (X25_nil_clause_panics_at_the_terminal_call
              (fun _ => None) TFind
              (Deferred.SQL (Deferred.mkEntity "orders" (Some "Order"))) [])
    as [H _]; [discriminate|].
  exact H.
Defined.

Section EagerGuard.
Import Eager.

Variable exec : gorm.event -> option errors.error.

Ltac close_eager_log :=
  first
    [ by (exists []; split; [by rewrite app_nil_r | constructor])
    | by (rewrite <- ?app_assoc; simpl; eexists; split; [reflexivity|];
          repeat constructor) ].

(** No method takes the handle away or moves the builder to another
    connection, and every call that reaches the data layer goes through
    the handle. *)
Lemma eager_call_keeps_connection (m : eager_method) (e : Entity)
    (lg : list gorm.event) (s' : state) (d : gorm.DB) :
  db_ (transaction_ e) = Some d ->
  eager_call exec m (mkState e lg) = Ok (tt, s') ->
  (exists d', db_ (transaction_ (ent s')) = Some d' /\ gorm.on d' = gorm.on d) /\
  exists evs,
    log s' = lg ++ evs /\
    Forall (fun ev => gorm.on (gorm.handle ev) = gorm.on d) evs.
Proof.
  intros Hd Hcall. destruct m.
  1: { unfold eager_call, eager_builder_call in Hcall. simpl in Hcall.
       destruct (shape c e) as [e1|] eqn:Hc; [|done].
       injection Hcall as <-. simpl.
       apply shape_adds_one_clause in Hc as (d0 & cl & Hd0 & -> & _).
       rewrite Hd in Hd0. injection Hd0 as <-.
       split; [by eexists|]. close_eager_log. }
  1: { unfold eager_call, eager_builder_call, SetTx in Hcall. simpl in Hcall.
       rewrite bool_decide_eq_true_2 in Hcall by (by rewrite Hd). done. }
  all: destruct e as [[od sp ob] er cl]; simpl in Hd; subst od.
  all: unfold eager_call, eager_drop_result, Find, One, Insert, Update, Delete,
         Query, QueryRows, Exec, commit, rollback, joinError, bind, get,
         finish, modify, ret in Hcall.
  all: cbn in Hcall.
  all: repeat (case_match; cbn in *; simplify_eq/=).
  all: try (split; [by eexists|]; close_eager_log).
Qed.

(** X26. The guard of the eager [SetTx] never lets it through: [SQL]
    stores a begun transaction, and no exported method takes the handle
    away, so on every builder the package can bring about, after any
    sequence of calls and any outcome of the data layer, [SetTx] panics.
    The builder stays on the transaction that [SQL] began, and every
    call that reaches the data layer runs inside it. *)
Theorem X26_SetTx_panics_on_every_reachable_builder :
  forall s : state,
    eager_reachable exec s ->
    (exists d, db_ (transaction_ (ent s)) = Some d /\ gorm.on d = gorm.Tx) /\
    Forall (fun ev => gorm.on (gorm.handle ev) = gorm.Tx) (log s) /\
    forall t, SetTx t (ent s) = Panic.
Proof.
  intros s Hs.
  assert (H : (exists d, db_ (transaction_ (ent s)) = Some d /\
                         gorm.on d = gorm.Tx) /\
              Forall (fun ev => gorm.on (gorm.handle ev) = gorm.Tx) (log s)).
  { induction Hs as [|s s' m Hs [(d & Hd & Hon) IHlog] Hcall].
    - split; [by eexists | constructor].
    - destruct s as [e lg].
      destruct (eager_call_keeps_connection m e lg s' d Hd Hcall)
        as ((d' & Hd' & Hon') & evs & -> & Hevs).
      split.
      + exists d'. split; [done|]. by rewrite Hon'.
      + apply Forall_app. split; [done|].
        eapply Forall_impl; [exact Hevs|]. simpl. intros ev ->. done. }
  destruct H as [(d & Hd & Hon) Hlog].
  split; [by eauto|]. split; [done|].
  intros t. unfold SetTx. rewrite bool_decide_eq_true_2; [done|].
  by rewrite Hd.
Qed.

End EagerGuard.

Lemma X26_witness :
  let exec := fun _ : gorm.event => Some E1 in
  let filtered := gorm.add (gorm.Limit 1%Z) begun in
  exists s,
    eager_reachable exec s /\
    Eager.log s = [gorm.mkEvent filtered gorm.Updates;
                   gorm.mkEvent filtered gorm.Rollback] /\
    Eager.SetTx (Some (Eager.mkTransaction (Some begun) "" "")) (Eager.ent s)
    = Panic.
Proof.
  intros exec filtered.
  assert (Hr : eager_reachable exec
                 (Eager.mkState
                    (Eager.set_error (Some E1)
                       (Eager.set_db (Some filtered) Eager.SQL))
                    [gorm.mkEvent filtered gorm.Updates;
                     gorm.mkEvent filtered gorm.Rollback])).
  { eapply (eager_reachable_call _ _ _ (EUpdate true)).
    - eapply (eager_reachable_call _ _ _ (EShape (Eager.CallLimit 1%Z))).
      + apply eager_reachable_SQL.
      + reflexivity.
    - reflexivity. }
  eexists. split; [exact Hr|]. split; [reflexivity|].
  exact (proj2 (proj2 (X26_SetTx_panics_on_every_reachable_builder exec _ Hr)) _).
Defined.

Section EagerCommits.
Import Eager.

Variable exec : gorm.event -> option errors.error.

(** X27. In the eager revision the commit is asked for by the argument
    of the write: a write that succeeds is followed by a commit on the
    builder's handle exactly when [commit] is true. Without commit, or
    when the commit succeeds, the method returns nil and leaves the
    builder as it was; when the commit fails the returned error exposes
    the commit error. *)
Theorem X27_eager_write_commits_iff_asked :
  forall (e : Entity) (lg : list gorm.event) (d : gorm.DB) (commit_flag : bool),
    db_ (transaction_ e) = Some d ->
    let cev := gorm.mkEvent d gorm.Commit in
    let committed (a : gorm.action) (m : M (option errors.error)) :=
      exec (gorm.mkEvent d a) = None ->
      exists r e',
        m (mkState e lg)
        = Ok (r, mkState e'
                   (lg ++ gorm.mkEvent d a :: (if commit_flag then [cev] else []))) /\
        match (if commit_flag then exec cev else None) with
        | None => r = None /\ e' = e
        | Some ce => errors.exposes r ce = true
        end in
    committed gorm.Create (Insert exec commit_flag) /\
    committed gorm.Updates (Update exec commit_flag) /\
    committed gorm.Delete (Delete exec commit_flag).
Proof.
  intros e lg d cf Hd cev committed.
  destruct e as [[od sp ob] er cl]. simpl in Hd. subst od.
  subst committed. cbv beta.
  unfold Insert, Update, Delete, commit, joinError, bind, get, finish,
    modify, ret.
  repeat split; intros Ha; cbn; rewrite Ha; cbn.
  all: destruct cf; cbn; [|by eexists None, _].
  all: fold cev; destruct (exec cev) as [ce|] eqn:Hce; cbn;
         [|eexists None, _; split; [by rewrite <- app_assoc | done]].
  all: destruct (errors.Unwrap er) eqn:Hu; cbn.
  all: do 2 eexists; (split; [by rewrite <- app_assoc|]).
  all: first [ apply Join_exposes_last | simpl; apply Is_refl ].
Qed.

End EagerCommits.

Lemma X27_witness :
  exists r e',
    Eager.Insert (fun _ => None) true (Eager.mkState Eager.SQL [])
    = Ok (r, Eager.mkState e'
               [gorm.mkEvent begun gorm.Create; gorm.mkEvent begun gorm.Commit]) /\
    r = None /\ e' = Eager.SQL.
Proof.
  destruct (X27_eager_write_commits_iff_asked
              (fun _ => None) Eager.SQL [] begun true eq_refl)
    as (H & _).
  destruct (H eq_refl) as (r & e' & Hrun & Hr).
  exists r, e'. split; [exact Hrun | exact Hr].
Defined.

(** ** The scope list at every method that takes it *)

Section ScopeAppliers.
Import Deferred.

Variable exec : gorm.event -> option errors.error.






End ScopeAppliers.

